(** * Feddit API proxy: the cached, de-duplicating upstream client

    Shallow embedding of [feddit_api/main.py]: the request key
    ([FedditClient._get_cache_key]), the per-key lock registry
    ([FedditClient._get_request_lock]), the cached GET
    ([FedditClient._make_request]), subfeddit resolution
    ([FedditClient.get_subfeddit_by_name]), the comments page
    ([FedditClient.get_comments]) and the comments route handler
    ([get_subfeddit_comments]). *)

From Stdlib Require Import ZArith Ascii PrimFloat.
From stdpp Require Import gmap strings list sorting pretty.

(** ** Python values *)

#[local] Set Warnings "-register-all".

(** JSON payloads and the values the handlers build from them.  A [PDict]
    keeps its fields in insertion order, as a Python [dict] does; text is
    modelled over code points below 256. *)
Inductive pyval : Type :=
  | PNone
  | PBool (b : bool)
  | PInt (n : Z)
  | PFloat (x : float)
  | PStr (s : string)
  | PList (items : list pyval)
  | PDict (fields : list (string * pyval)).

(** What the program takes from its libraries without computing it: the
    text Python prints for a float, and TextBlob's polarity of a text. *)
Class Externals := {
  float_repr : float → string;
  textblob_polarity : string → float
}.

Module Py.

(** [d[k]] on the fields of a dict: the first (only) field named [k]. *)
Fixpoint dict_get (k : string) (d : list (string * pyval)) : option pyval :=
  match d with
  | [] => None
  | (k', v) :: d' => if String.eqb k k' then Some v else dict_get k d'
  end.

(** [d[k] = v]: an existing field keeps its position, a new one goes last. *)
Fixpoint dict_set (k : string) (v : pyval) (d : list (string * pyval))
  : list (string * pyval) :=
  match d with
  | [] => [(k, v)]
  | (k', v') :: d' =>
      if String.eqb k k' then (k, v) :: d' else (k', v') :: dict_set k v d'
  end.

(** [bool(v)] *)
Definition truthy (v : pyval) : bool :=
  match v with
  | PNone => false
  | PBool b => b
  | PInt n => negb (n =? 0)%Z
  | PFloat x => negb (PrimFloat.eqb x 0%float)
  | PStr s => negb (String.eqb s "")
  | PList items => match items with [] => false | _ => true end
  | PDict fields => match fields with [] => false | _ => true end
  end.

Definition code (c : ascii) : N := Ascii.N_of_ascii c.

(** [str.lower] on one character. *)
Definition lower_char (c : ascii) : ascii :=
  let n := code c in
  if ((65 <=? n) && (n <=? 90))%N then Ascii.ascii_of_N (n + 32)
  else if ((192 <=? n) && (n <=? 222) && negb (n =? 215))%N
       then Ascii.ascii_of_N (n + 32)
  else c.

Fixpoint lower (s : string) : string :=
  match s with
  | EmptyString => EmptyString
  | String c s' => String (lower_char c) (lower s')
  end.

Fixpoint contains_char (c : ascii) (s : string) : bool :=
  match s with
  | EmptyString => false
  | String c' s' => Ascii.eqb c c' || contains_char c s'
  end.

Definition hex_digit (n : N) : ascii :=
  if (n <? 10)%N then Ascii.ascii_of_N (48 + n) else Ascii.ascii_of_N (87 + n).

Definition printable (n : N) : bool :=
  ((32 <=? n) && (n <? 127) || (161 <=? n) && negb (n =? 173))%N.

Definition backslash : ascii := Ascii.ascii_of_N 92.
Definition single_quote : ascii := Ascii.ascii_of_N 39.
Definition double_quote : ascii := Ascii.ascii_of_N 34.

(** One character of [repr(s)], inside the quote character [q]. *)
Definition escape_char (q c : ascii) : string :=
  let n := code c in
  if Ascii.eqb c q || Ascii.eqb c backslash then String backslash (String c "")
  else if (n =? 9)%N then String backslash "t"
  else if (n =? 10)%N then String backslash "n"
  else if (n =? 13)%N then String backslash "r"
  else if printable n then String c ""
  else String backslash
         (String "x" (String (hex_digit (n / 16)) (String (hex_digit (n mod 16)) ""))).

Fixpoint escape (q : ascii) (s : string) : string :=
  match s with
  | EmptyString => EmptyString
  | String c s' => escape_char q c +:+ escape q s'
  end.

(** [repr(s)] for a [str]: single quotes unless the text has a single and
    no double quote. *)
Definition str_repr (s : string) : string :=
  let q := if contains_char single_quote s && negb (contains_char double_quote s)
           then double_quote else single_quote in
  String q (escape q s +:+ String q "").

Section repr.
Context `{Externals}.

(** [repr(v)] *)
Fixpoint repr (v : pyval) : string :=
  match v with
  | PNone => "None"
  | PBool true => "True"
  | PBool false => "False"
  | PInt n => pretty n
  | PFloat x => float_repr x
  | PStr s => str_repr s
  | PList items => "[" +:+ String.concat ", " (map repr items) +:+ "]"
  | PDict fields =>
      "{" +:+ String.concat ", "
                (map (λ kv, str_repr kv.1 +:+ ": " +:+ repr kv.2) fields)
          +:+ "}"
  end.

(** [repr((k, v))] for one item of [params.items()]. *)
Definition item_repr (kv : string * pyval) : string :=
  "(" +:+ str_repr kv.1 +:+ ", " +:+ repr kv.2 +:+ ")".

(** [str(items)] for a list of items. *)
Definition items_str (items : list (string * pyval)) : string :=
  "[" +:+ String.concat ", " (map item_repr items) +:+ "]".

End repr.

(** [sorted(items)]: the names of a dict are distinct, so two items are
    ordered by name alone.  Stable insertion: an item goes in front of the
    first one that is greater. *)
Fixpoint insert_item (x : string * pyval) (l : list (string * pyval))
  : list (string * pyval) :=
  match l with
  | [] => [x]
  | y :: l' => if String.ltb x.1 y.1 then x :: y :: l' else y :: insert_item x l'
  end.

Definition sorted (items : list (string * pyval)) : list (string * pyval) :=
  foldl (λ acc x, insert_item x acc) [] items.

End Py.

(** Query parameters: the items of the [params] dict, in insertion order. *)
Abbreviation params := (list (string * pyval)).

(** ** Exceptions and results *)

(** Built-in exceptions the modelled code can meet. *)
Inductive py_error : Type :=
  | KeyError (key : string)
  | TypeError
  | AttributeError
  | ValueError.

(** The [detail] of an [HTTPException]: a text, or [str(e)] of a built-in
    exception, which is kept symbolic. *)
Inductive detail : Type :=
  | Text (s : string)
  | StrOf (e : py_error).

Inductive exn : Type :=
  | Builtin (e : py_error)
  | HTTPException (status_code : Z) (d : detail).

Inductive result (A : Type) : Type :=
  | Return (a : A)
  | Raise (e : exn).
Arguments Return {A} a.
Arguments Raise {A} e.

(** ** The request cache *)

(** Modelled from the spec: [cachetools.TTLCache], which [main.py] imports
    and which is not part of the repository.  Entries are kept oldest
    first and carry their insertion time; an entry is valid while
    [now - stamp < ttl]; storing overwrites and re-stamps, and a store
    into a full cache first evicts the oldest entry.  A store into a cache
    of capacity below one is refused ([ValueError]). *)
Module TTLCache.

Record entry : Type := Entry { key : string; value : nat; stamp : Z }.

Record t : Type := Make { maxsize : Z; ttl : Z; entries : list entry }.

Definition valid (c : t) (now : Z) (e : entry) : bool := (now - stamp e <? ttl c)%Z.

Fixpoint find (k : string) (l : list entry) : option entry :=
  match l with
  | [] => None
  | e :: l' => if String.eqb (key e) k then Some e else find k l'
  end.

(** [k in cache] followed by [cache[k]] *)
Definition get (c : t) (k : string) (now : Z) : option nat :=
  match find k (entries c) with
  | Some e => if valid c now e then Some (value e) else None
  | None => None
  end.

(** Drop oldest entries until at most [n] remain. *)
Definition evict_to (n : nat) (l : list entry) : list entry :=
  drop (length l - n) l.

(** [cache[k] = v] *)
Definition put (c : t) (k : string) (v : nat) (now : Z) : option t :=
  if (maxsize c <? 1)%Z then None
  else
    let others := filter (λ e, key e ≠ k) (entries c) in
    Some (Make (maxsize c) (ttl c)
               (evict_to (Z.to_nat (maxsize c) - 1) others ++ [Entry k v now])).

(** The keys that a lookup at [now] finds. *)
Definition retrievable (c : t) (now : Z) : list string :=
  key <$> filter (λ e, valid c now e = true) (entries c).

End TTLCache.

(** ** Locks *)

(** [asyncio.Lock]: [waiters] are the tasks suspended in [acquire], first
    come first; [release] wakes the first of them. *)
Record Lock : Type := { locked : bool; waiters : list nat }.

Definition new_lock : Lock := {| locked := false; waiters := [] |}.

(** ** Shared state *)

(** What the upstream answers to one GET. *)
Inductive reply : Type :=
  | ConnectFailed (msg : string)
  | TimedOut (msg : string)
  | Response (status_code : Z) (status_msg : string) (json : option pyval).

(** Module-level and client state.  [heap] holds the payload objects by
    address: a payload parsed by [response.json()] is a fresh tree, and
    every holder of it (the cache, each caller) holds its address.  [sent]
    lists the GETs handed to the network, [log] the [logger.error] lines
    (text in front, then the detail). *)
Record state : Type := State {
  now : Z;
  heap : list pyval;
  request_cache : TTLCache.t;
  _request_locks : gmap string Lock;
  sent : list (string * params);
  log : list (string * detail)
}.

Definition set_now (f : Z → Z) (s : state) : state :=
  State (f (now s)) (heap s) (request_cache s) (_request_locks s) (sent s) (log s).
Definition set_heap (h : list pyval) (s : state) : state :=
  State (now s) h (request_cache s) (_request_locks s) (sent s) (log s).
Definition set_cache (c : TTLCache.t) (s : state) : state :=
  State (now s) (heap s) c (_request_locks s) (sent s) (log s).
Definition set_locks (m : gmap string Lock) (s : state) : state :=
  State (now s) (heap s) (request_cache s) m (sent s) (log s).
Definition add_sent (url : string) (p : params) (s : state) : state :=
  State (now s) (heap s) (request_cache s) (_request_locks s)
        (sent s ++ [(url, p)]) (log s).
Definition add_log (text : string) (d : detail) (s : state) : state :=
  State (now s) (heap s) (request_cache s) (_request_locks s) (sent s)
        (log s ++ [(text, d)]).

(** The clock moves on by [d]. *)
Definition tick (d : nat) : state → state := set_now (λ t, t + Z.of_nat d)%Z.

(** [k in request_cache], then [request_cache[k]] *)
Definition cached (k : string) (s : state) : option nat :=
  TTLCache.get (request_cache s) k (now s).

(** [FedditClient._get_request_lock]: no suspension inside, so the lookup
    and the creation are one step. *)
Definition _get_request_lock (k : string) (s : state) : Lock * state :=
  match _request_locks s !! k with
  | Some lk => (lk, s)
  | None => (new_lock, set_locks (<[k := new_lock]> (_request_locks s)) s)
  end.

(** [lock.release()] *)
Definition release (k : string) (s : state) : state :=
  match _request_locks s !! k with
  | Some lk =>
      set_locks (<[k := {| locked := false; waiters := waiters lk |}]>
                   (_request_locks s)) s
  | None => s
  end.

(** ** The cached GET, between suspension points *)

(** A call of [_make_request] is at one of these points. *)
Inductive task : Type :=
  | Start (url : string) (p : params)
  | WaitLock (url : string) (p : params)
  | AwaitGet (url : string) (p : params)
  | Done (r : result nat).

Section client.
Context `{Externals}.

(** [FedditClient._get_cache_key]: [f"{url}:{str(sorted(params.items()))}"] *)
Definition _get_cache_key (url : string) (p : params) : string :=
  url +:+ ":" +:+ Py.items_str (Py.sorted p).

(** Lines 106-110, with the lock held: the second look at the cache, then
    the GET is handed to the network. *)
Definition _make_request_locked (url : string) (p : params) (s : state)
  : task * state :=
  let k := _get_cache_key url p in
  match cached k s with
  | Some l => (Done (Return l), release k s)
  | None => (AwaitGet url p, add_sent url p s)
  end.

(** Lines 100-105: the first look at the cache, then [acquire], which
    takes a free lock at once and otherwise queues the task [me]. *)
Definition _make_request_enter (me : nat) (url : string) (p : params)
  (s : state) : task * state :=
  let k := _get_cache_key url p in
  match cached k s with
  | Some l => (Done (Return l), s)
  | None =>
      let '(lk, s1) := _get_request_lock k s in
      if locked lk || negb (bool_decide (waiters lk = []))
      then (WaitLock url p,
            set_locks (<[k := {| locked := locked lk;
                                 waiters := waiters lk ++ [me] |}]>
                         (_request_locks s1)) s1)
      else _make_request_locked url p
             (set_locks (<[k := {| locked := true; waiters := [] |}]>
                           (_request_locks s1)) s1)
  end.

(** [acquire] resumes in the first waiter once the lock was released. *)
Definition _make_request_wake (me : nat) (url : string) (p : params)
  (s : state) : option (task * state) :=
  let k := _get_cache_key url p in
  match _request_locks s !! k with
  | Some {| locked := false; waiters := w :: ws |} =>
      if bool_decide (w = me)
      then Some (_make_request_locked url p
                   (set_locks (<[k := {| locked := true; waiters := ws |}]>
                                 (_request_locks s)) s))
      else None
  | _ => None
  end.

(** The [except httpx.HTTPError] branch, lines 115-118. *)
Definition upstream_failed (url msg : string) (s : state) : result nat * state :=
  (Raise (HTTPException 500 (Text msg)),
   add_log ("Error making request to " +:+ url +:+ ": ") (Text msg) s).

(** Lines 110-118 from the answer of the network on, and the release of
    the lock on the way out. *)
Definition _make_request_receive (url : string) (p : params) (r : reply)
  (s : state) : result nat * state :=
  let k := _get_cache_key url p in
  let '(res, s') :=
    match r with
    | ConnectFailed msg => upstream_failed url msg s
    | TimedOut msg => upstream_failed url msg s
    | Response code status_msg json =>
        if negb ((200 <=? code) && (code <? 300))%Z
        then upstream_failed url status_msg s
        else match json with
             | None => (Raise (Builtin ValueError), s)
             | Some data =>
                 let l := length (heap s) in
                 let s1 := set_heap (heap s ++ [data]) s in
                 match TTLCache.put (request_cache s1) k l (now s1) with
                 | Some c => (Return l, set_cache c s1)
                 | None => (Raise (Builtin ValueError), s1)
                 end
             end
    end in
  (res, release k s').

End client.

(** ** Concurrent callers *)

(** The event loop runs one task at a time, from one suspension point to
    the next; the network answers a pending GET; the clock moves on. *)
Inductive action : Type :=
  | Run (t : nat)
  | Deliver (t : nat) (r : reply)
  | Tick (d : nat).

Record world : Type := World { shared : state; tasks : list task }.

Section loop.
Context `{Externals}.

Definition step (a : action) (w : world) : option world :=
  match a with
  | Run t =>
      match tasks w !! t with
      | Some (Start url p) =>
          let '(tk, s) := _make_request_enter t url p (shared w) in
          Some (World s (<[t := tk]> (tasks w)))
      | Some (WaitLock url p) =>
          match _make_request_wake t url p (shared w) with
          | Some (tk, s) => Some (World s (<[t := tk]> (tasks w)))
          | None => None
          end
      | _ => None
      end
  | Deliver t r =>
      match tasks w !! t with
      | Some (AwaitGet url p) =>
          let '(res, s) := _make_request_receive url p r (shared w) in
          Some (World s (<[t := Done res]> (tasks w)))
      | _ => None
      end
  | Tick d => Some (World (tick d (shared w)) (tasks w))
  end.

(** A schedule: [None] when one of its actions is not enabled. *)
Fixpoint run (acts : list action) (w : world) : option world :=
  match acts with
  | [] => Some w
  | a :: rest =>
      match step a w with
      | Some w' => run rest w'
      | None => None
      end
  end.

End loop.

Definition is_done (tk : task) : bool :=
  match tk with Done _ => true | _ => false end.

(** ** One caller at a time *)

(** What the network does with a GET: how long it takes and the answer. *)
Abbreviation upstream := (string → params → nat * reply).

(** Computations of one caller over the shared state: a value or an
    exception, or [None] where the caller would wait for ever. *)
Definition M (A : Type) : Type := state → option (result A * state).

Definition ret {A} (a : A) : M A := λ s, Some (Return a, s).
Definition raise {A} (e : exn) : M A := λ s, Some (Raise e, s).
Definition lift {A} (r : result A) : M A := λ s, Some (r, s).
Definition bind {A B} (m : M A) (f : A → M B) : M B := λ s,
  match m s with
  | Some (Return a, s') => f a s'
  | Some (Raise e, s') => Some (Raise e, s')
  | None => None
  end.

Notation "'let*' x ':=' m 'in' k" := (bind m (λ x, k))
  (at level 10, x name, m at level 100, k at level 200).

(** The object at an address. *)
Definition deref (l : nat) : M pyval := λ s,
  match heap s !! l with
  | Some v => Some (Return v, s)
  | None => None
  end.

(** [obj[k] = v] on the dict at address [l]. *)
Definition store_field (l : nat) (k : string) (v : pyval) : M unit := λ s,
  match heap s !! l with
  | Some (PDict f) =>
      Some (Return (), set_heap (<[l := PDict (Py.dict_set k v f)]> (heap s)) s)
  | Some _ => Some (Raise (Builtin TypeError), s)
  | None => None
  end.

(** [except HTTPException: raise], then [except Exception as e]: log and
    raise [HTTPException(status_code=500, detail=str(e))]. *)
Definition except_exception {A} (text : string) (m : M A) : M A := λ s,
  match m s with
  | Some (Raise (Builtin e), s') =>
      Some (Raise (HTTPException 500 (StrOf e)), add_log text (StrOf e) s')
  | r => r
  end.

(** [v[k]] for a text key [k] *)
Definition subscript (v : pyval) (k : string) : result pyval :=
  match v with
  | PDict f =>
      match Py.dict_get k f with
      | Some x => Return x
      | None => Raise (Builtin (KeyError k))
      end
  | _ => Raise (Builtin TypeError)
  end.

(** [v.get(k, default)] *)
Definition method_get (v : pyval) (k : string) (dflt : pyval) : result pyval :=
  match v with
  | PDict f => Return (default dflt (Py.dict_get k f))
  | _ => Raise (Builtin AttributeError)
  end.

(** [iter(v)]: the elements a [for] loop over [v] visits. *)
Definition iter (v : pyval) : result (list pyval) :=
  match v with
  | PList items => Return items
  | PDict f => Return ((λ kv, PStr kv.1) <$> f)
  | PStr s => Return ((λ c, PStr (String c "")) <$> String.list_ascii_of_string s)
  | _ => Raise (Builtin TypeError)
  end.

(** [v.lower()] *)
Definition method_lower (v : pyval) : result string :=
  match v with
  | PStr s => Return (Py.lower s)
  | _ => Raise (Builtin AttributeError)
  end.

(** [next((s for s in subfeddits if s['title'].lower() == name.lower()),
    None)]: the generator stops at the first match, and an entry it cannot
    read ends the search with that error. *)
Fixpoint next_match (name : string) (items : list pyval) : result (option pyval) :=
  match items with
  | [] => Return None
  | s :: rest =>
      match subscript s "title" with
      | Raise e => Raise e
      | Return title =>
          match method_lower title with
          | Raise e => Raise e
          | Return t =>
              if String.eqb t (Py.lower name) then Return (Some s)
              else next_match name rest
          end
      end
  end.

Definition not_found (name : string) : exn :=
  HTTPException 404 (Text ("Subfeddit with name '" +:+ name +:+ "' not found")).

Section operations.
Context `{Externals}.

(** [FedditClient._make_request] run by a caller that is alone: it enters,
    and where the GET is sent the network takes its time and answers. *)
Definition _make_request (net : upstream) (url : string) (p : params) : M nat :=
  λ s,
  match _make_request_enter 0 url p s with
  | (Done r, s') => Some (r, s')
  | (AwaitGet _ _, s') =>
      let '(d, r) := net url p in
      Some (_make_request_receive url p r (tick d s'))
  | _ => None
  end.

(** [FedditClient.get_subfeddit_by_name] *)
Definition get_subfeddit_by_name (net : upstream) (subfeddit_name : string)
  : M nat :=
  except_exception "Error finding subfeddit by name: "
    (let* l := _make_request net "/api/v1/subfeddits/" [("limit", PInt 100)] in
     let* subfeddits_data := deref l in
     let* subfeddits := lift (method_get subfeddits_data "subfeddits" (PList [])) in
     let* items := lift (iter subfeddits) in
     let* found := lift (next_match subfeddit_name items) in
     match found with
     | Some subfeddit =>
         if Py.truthy subfeddit
         then let* id := lift (subscript subfeddit "id") in
              _make_request net "/api/v1/subfeddit/" [("subfeddit_id", id)]
         else raise (not_found subfeddit_name)
     | None => raise (not_found subfeddit_name)
     end).

(** [FedditClient.get_comments] *)
Definition get_comments (net : upstream) (subfeddit_id : pyval) (limit skip : Z)
  : M nat :=
  _make_request net "/api/v1/comments/"
    [("subfeddit_id", subfeddit_id); ("limit", PInt limit); ("skip", PInt skip)].

(** [analyze_sentiment(text).dict()]; [TextBlob] takes text only. *)
Definition analyze_sentiment (text : pyval) : result pyval :=
  match text with
  | PStr t =>
      let polarity := textblob_polarity t in
      let classification :=
        if PrimFloat.ltb 0 polarity then "positive"
        else if PrimFloat.ltb polarity 0 then "negative" else "neutral" in
      Return (PDict [("polarity", PFloat polarity);
                     ("classification", PStr classification)])
  | _ => Raise (Builtin TypeError)
  end.

(** Lines 196-198, [for comment in comments_data['comments']:
    comment['sentiment'] = ...]: the comments as the loop leaves them, and
    the exception that ended it, if one did. *)
Fixpoint add_sentiment (comments : list pyval) : list pyval * option exn :=
  match comments with
  | [] => ([], None)
  | comment :: rest =>
      match subscript comment "text" with
      | Raise e => (comment :: rest, Some e)
      | Return text =>
          match analyze_sentiment text, comment with
          | Return sentiment, PDict f =>
              let '(rest', e) := add_sentiment rest in
              (PDict (Py.dict_set "sentiment" sentiment f) :: rest', e)
          | Raise e, _ => (comment :: rest, Some e)
          | _, _ => (comment :: rest, Some (Builtin TypeError))
          end
      end
  end.

(** Lines 202-205: the comments whose
    [comment['sentiment']['classification']] is [filter_by]. *)
Fixpoint filter_comments (filter_by : string) (comments : list pyval)
  : result (list pyval) :=
  match comments with
  | [] => Return []
  | comment :: rest =>
      match subscript comment "sentiment" with
      | Raise e => Raise e
      | Return sentiment =>
          match subscript sentiment "classification" with
          | Raise e => Raise e
          | Return c =>
              match filter_comments filter_by rest with
              | Raise e => Raise e
              | Return rest' =>
                  Return (match c with
                          | PStr c' =>
                              if String.eqb c' filter_by then comment :: rest'
                              else rest'
                          | _ => rest'
                          end)
              end
          end
      end
  end.

Definition optional (o : option string) : pyval :=
  match o with Some s => PStr s | None => PNone end.

(** The route handler [get_subfeddit_comments] for a request without
    [sort_by], up to the construction of the response model: it returns
    the address of [comments_data].  [comments_data] is the object
    [get_comments] returned, so every assignment lands in the heap. *)
Definition get_subfeddit_comments (net : upstream) (subfeddit_name : string)
  (limit skip : Z) (sort_order filter_by : option string) : M nat :=
  except_exception "Error getting subfeddit comments: "
    (let* subfeddit := get_subfeddit_by_name net subfeddit_name in
     let* subfeddit_data := deref subfeddit in
     let* id := lift (subscript subfeddit_data "id") in
     let* comments_data := get_comments net id limit skip in
     let* data := deref comments_data in
     let* comments := lift (subscript data "comments") in
     let* elements := lift (iter comments) in
     let '(elements', stopped) := add_sentiment elements in
     let* _ := match comments with
               | PList _ => store_field comments_data "comments" (PList elements')
               | _ => ret ()
               end in
     match stopped with
     | Some e => raise e
     | None =>
         let* _ :=
           match filter_by with
           | Some f =>
               if String.eqb f "" then ret ()
               else
                 let* data := deref comments_data in
                 let* comments := lift (subscript data "comments") in
                 let* elements := lift (iter comments) in
                 let* kept := lift (filter_comments f elements) in
                 store_field comments_data "comments" (PList kept)
           | None => ret ()
           end in
         let* _ := store_field comments_data "subfeddit_name" (PStr subfeddit_name) in
         let* _ := store_field comments_data "sort_by" PNone in
         let* _ := store_field comments_data "sort_order" (optional sort_order) in
         let* _ := store_field comments_data "filter_by" (optional filter_by) in
         ret comments_data
     end).

End operations.

(** ** The upstream service *)

(** Modelled from the spec: the upstream Feddit API (spec section 6), an
    external service.  The listing answers with the first [limit]
    subfeddits, the detail endpoint with the subfeddit of the given id,
    the comments endpoint with [limit] comments after the first [skip]. *)
Module Feddit.

Record db : Type := Db {
  subfeddits : list (Z * string);
  comments : Z → list pyval;
  latency : nat
}.

Definition subfeddit_json (sf : Z * string) : pyval :=
  PDict [("id", PInt sf.1); ("title", PStr sf.2)].

Definition listing (d : db) (limit : Z) : pyval :=
  PDict [("limit", PInt limit); ("skip", PInt 0);
         ("subfeddits",
          PList (subfeddit_json <$> take (Z.to_nat limit) (subfeddits d)))].

Definition page (d : db) (id limit skip : Z) : pyval :=
  PDict [("subfeddit_id", PInt id); ("limit", PInt limit); ("skip", PInt skip);
         ("comments",
          PList (take (Z.to_nat limit) (drop (Z.to_nat skip) (comments d id))))].

Definition answer (d : db) (url : string) (p : params) : reply :=
  if String.eqb url "/api/v1/subfeddits/" then
    match Py.dict_get "limit" p with
    | Some (PInt n) => Response 200 "OK" (Some (listing d n))
    | _ => Response 422 "Unprocessable Entity" None
    end
  else if String.eqb url "/api/v1/subfeddit/" then
    match Py.dict_get "subfeddit_id" p with
    | Some (PInt i) =>
        match list_find (λ sf, sf.1 = i) (subfeddits d) with
        | Some (_, sf) => Response 200 "OK" (Some (subfeddit_json sf))
        | None => Response 404 "Not Found" None
        end
    | _ => Response 422 "Unprocessable Entity" None
    end
  else if String.eqb url "/api/v1/comments/" then
    match Py.dict_get "subfeddit_id" p, Py.dict_get "limit" p,
          Py.dict_get "skip" p with
    | Some (PInt i), Some (PInt l), Some (PInt k) =>
        Response 200 "OK" (Some (page d i l k))
    | _, _, _ => Response 422 "Unprocessable Entity" None
    end
  else Response 404 "Not Found" None.

Definition serve (d : db) : upstream := λ url p, (latency d, answer d url p).

End Feddit.

(** ** Auxiliary notions for the statements *)

(** Items ordered by name. *)
Definition name_le (a b : string * pyval) : Prop := String.le a.1 b.1.

(** The last [n] elements of a list. *)
Definition last_n {A} (n : nat) (l : list A) : list A := drop (length l - n) l.

(** A series of stores, each entry giving the key, the value and the time
    of one store. *)
Fixpoint put_all (c : TTLCache.t) (items : list TTLCache.entry)
  : option TTLCache.t :=
  match items with
  | [] => Some c
  | e :: rest =>
      match TTLCache.put c (TTLCache.key e) (TTLCache.value e) (TTLCache.stamp e) with
      | Some c' => put_all c' rest
      | None => None
      end
  end.

(** No caller holds or waits for the lock of a key. *)
Definition lock_free (k : string) (s : state) : Prop :=
  match _request_locks s !! k with
  | Some lk => locked lk = false ∧ waiters lk = []
  | None => True
  end.

(** The GET failed: no connection, a timeout, or a status outside 2xx;
    the text is that of the [httpx.HTTPError]. *)
Definition upstream_error (r : reply) : option string :=
  match r with
  | ConnectFailed msg => Some msg
  | TimedOut msg => Some msg
  | Response code msg _ =>
      if ((200 <=? code) && (code <? 300))%Z then None else Some msg
  end.

(** Every entry has a title, and none of the titles is the name, case
    aside. *)
Definition no_match (name : string) (items : list pyval) : Prop :=
  Forall (λ e, ∃ t, subscript e "title" = Return (PStr t)
                    ∧ Py.lower t ≠ Py.lower name) items.

Definition listing_url : string := "/api/v1/subfeddits/".
Definition listing_params : params := [("limit", PInt 100)].
Definition detail_url : string := "/api/v1/subfeddit/".

(** The payload of an answer with a 2xx status and a JSON body. *)
Definition reply_payload (r : reply) : option pyval :=
  match r with
  | Response code _ (Some data) =>
      if ((200 <=? code) && (code <? 300))%Z then Some data else None
  | _ => None
  end.


(** The stages of a set of concurrent calls for one key, all issued from
    the state [s0]: no call has run into the network yet; the call [a] has
    its GET in flight and holds the lock; the payload is stored at address
    [l]. *)
Section stages.
Context `{Externals}.
Variables (s0 : state) (url : string) (p : params).





End stages.

(** ** Data for the worked examples *)

Module Example.

(** A stand-in for the two library functions. *)
Definition externals : Externals := {|
  float_repr := λ _, "0.0";
  textblob_polarity := λ t,
    if String.eqb t "This is a great comment!" then 1%float
    else if String.eqb t "This is a terrible comment." then (-1)%float
    else 0%float
|}.

Definition comment (id : Z) (username text : string) (created_at : Z) : pyval :=
  PDict [("id", PInt id); ("username", PStr username); ("text", PStr text);
         ("created_at", PInt created_at)].

Definition db : Feddit.db := {|
  Feddit.subfeddits := [(1, "Cooking"); (2, "Travel")]%Z;
  Feddit.comments := λ id,
    if (id =? 1)%Z
    then [comment 1 "user1" "This is a great comment!" 1234567890;
          comment 2 "user2" "This is a terrible comment." 1234567891;
          comment 3 "user3" "This is a neutral comment." 1234567892]
    else [];
  Feddit.latency := 1
|}.

(** An upstream that is down. *)
Definition down : upstream := λ _ _, (2, ConnectFailed "All connection attempts failed").

(** An upstream whose listing lacks the [subfeddits] field. *)
Definition no_field : upstream := λ _ _, (1, Response 200 "OK" (Some (PDict []))).

(** An upstream whose listing is empty. *)
Definition empty_listing : upstream :=
  λ _ _, (1, Response 200 "OK" (Some (PDict [("subfeddits", PList [])]))).


Definition cache0 : TTLCache.t := TTLCache.Make 100 60 [].

Definition state0 : state := State 0 [] cache0 ∅ [] [].

Definition comments_params : params :=
  [("subfeddit_id", PInt 1); ("limit", PInt 25); ("skip", PInt 0)].

Definition ok : reply := Response 200 "OK" (Some (Feddit.listing db 100)).

(** Two callers of the listing: both start, then each GET is answered. *)
Definition two_callers : world :=
  World state0 [Start listing_url listing_params; Start listing_url listing_params].

End Example.

(** ** Notions for the properties of the event loop *)

(** The key a call is after, while it is not done. *)
Definition key_of `{Externals} (tk : task) : option string :=
  match tk with
  | Start url p | WaitLock url p | AwaitGet url p => Some (_get_cache_key url p)
  | Done _ => None
  end.

Definition is_start (tk : task) : bool :=
  match tk with Start _ _ => true | _ => false end.

Definition is_await (tk : task) : bool :=
  match tk with AwaitGet _ _ => true | _ => false end.

(** A world before any call has run: every call is at its start and no
    lock is held or waited for. *)
Definition clean (w : world) : Prop :=
  Forall (λ tk, is_start tk = true) (tasks w)
  ∧ ∀ k lk, _request_locks (shared w) !! k = Some lk →
      locked lk = false ∧ waiters lk = [].

(** The locks and the calls agree: the waiters of a lock are the calls
    suspended in its [acquire], each once; a call with its GET in flight
    holds the lock of its key, a held lock has such a call, and no two
    calls have a GET in flight for one key. *)
Record coherent `{Externals} (w : world) : Prop := Coherent {
  waiters_wait : ∀ k lk, _request_locks (shared w) !! k = Some lk →
    NoDup (waiters lk)
    ∧ ∀ t, t ∈ waiters lk →
        ∃ url p, tasks w !! t = Some (WaitLock url p) ∧ _get_cache_key url p = k;
  waiting_queued : ∀ t url p, tasks w !! t = Some (WaitLock url p) →
    ∃ lk, _request_locks (shared w) !! _get_cache_key url p = Some lk
          ∧ t ∈ waiters lk;
  fetching_holds : ∀ t url p, tasks w !! t = Some (AwaitGet url p) →
    ∃ lk, _request_locks (shared w) !! _get_cache_key url p = Some lk
          ∧ locked lk = true;
  held_fetching : ∀ k lk, _request_locks (shared w) !! k = Some lk →
    locked lk = true →
    ∃ t url p, tasks w !! t = Some (AwaitGet url p) ∧ _get_cache_key url p = k;
  one_fetch : ∀ t t' url p url' p',
    tasks w !! t = Some (AwaitGet url p) →
    tasks w !! t' = Some (AwaitGet url' p') →
    _get_cache_key url p = _get_cache_key url' p' → t = t'
}.

(** What is left to do: a call at its start has three stretches before
    it, a waiting one two, one with its GET in flight one. *)
Definition weight (tk : task) : nat :=
  match tk with
  | Start _ _ => 3
  | WaitLock _ _ => 2
  | AwaitGet _ _ => 1
  | Done _ => 0
  end.

Definition remaining (w : world) : nat := sum_list (weight <$> tasks w).

(** The answers of a schedule are those of [net], which answers the GET
    of each call. *)
Definition answers (net : nat → reply) (a : action) : Prop :=
  match a with
  | Deliver t r => r = net t
  | _ => True
  end.

(** ** Notions for the properties of a lone caller *)

(** No lock is held or waited for. *)
Definition quiet (s : state) : Prop :=
  ∀ k lk, _request_locks s !! k = Some lk → locked lk = false ∧ waiters lk = [].

(** Every address the cache holds is that of an object of the heap. *)
Definition sound (s : state) : Prop :=
  Forall (λ e, TTLCache.value e < length (heap s))
         (TTLCache.entries (request_cache s)).

(** From a state in [P] the computation ends, with an outcome and a state
    in [Q]. *)
Definition triple {A} (P : state → Prop) (m : M A)
  (Q : result A → state → Prop) : Prop :=
  ∀ s, P s → ∃ r s', m s = Some (r, s') ∧ Q r s'.

(** The exceptions a route handler lets out: the 404 of a name that no
    title matches, and the 500 of everything else. *)
Definition http_error (name : string) (e : exn) : Prop :=
  e = not_found name ∨ ∃ d, e = HTTPException 500 d.

(** A state no caller is busy in, with at most [n] GETs sent. *)
Definition rest_state (n : nat) (s : state) : Prop :=
  quiet s ∧ sound s ∧ length (sent s) ≤ n.


(** What an answer [r] to the GET of [url] with [p], received in [s],
    leaves behind: the lock is released; an [httpx.HTTPError] is logged and
    becomes the error 500; a body that is not JSON is a [ValueError]; a
    payload becomes a new object of the heap, and is cached unless the
    cache has no room at all. *)
Definition received `{Externals} (url : string) (p : params) (r : reply)
  (s : state) (out : result nat * state) : Prop :=
  let '(res, s') := out in
  sent s' = sent s ∧ now s' = now s
  ∧ _request_locks s' = _request_locks (release (_get_cache_key url p) s)
  ∧ ((∃ msg, upstream_error r = Some msg
            ∧ res = Raise (HTTPException 500 (Text msg))
            ∧ heap s' = heap s ∧ request_cache s' = request_cache s
            ∧ log s' = log s ++ [("Error making request to " +:+ url +:+ ": ",
                                  Text msg)])
     ∨ (res = Raise (Builtin ValueError) ∧ reply_payload r = None
        ∧ upstream_error r = None
        ∧ heap s' = heap s ∧ request_cache s' = request_cache s ∧ log s' = log s)
     ∨ (∃ data, reply_payload r = Some data
          ∧ heap s' = heap s ++ [data] ∧ log s' = log s
          ∧ ((res = Return (length (heap s))
              ∧ TTLCache.put (request_cache s) (_get_cache_key url p)
                  (length (heap s)) (now s) = Some (request_cache s'))
             ∨ (res = Raise (Builtin ValueError)
                ∧ (TTLCache.maxsize (request_cache s) < 1)%Z
                ∧ request_cache s' = request_cache s)))).

(** ** Notions for the properties of the handler's loops *)

(** The comment [c] after one round of the loop of lines 196-198: a dict
    with a text, to which the sentiment of that text is added. *)
Definition annotated `{Externals} (c c' : pyval) : Prop :=
  ∃ f t s, c = PDict f ∧ Py.dict_get "text" f = Some (PStr t)
    ∧ analyze_sentiment (PStr t) = Return s
    ∧ c' = PDict (Py.dict_set "sentiment" s f).

(** [comment['sentiment']['classification'] == filter_by], for a comment
    that has the two fields. *)
Definition classified (filter_by : string) (comment : pyval) : bool :=
  match subscript comment "sentiment" with
  | Return sentiment =>
      match subscript sentiment "classification" with
      | Return (PStr c) => String.eqb c filter_by
      | _ => false
      end
  | Raise _ => false
  end.
(** * Properties *)

(** ** Request keys do not depend on the order of the parameters *)

Lemma ltb_false_le (a b : string) : String.ltb a b = false → String.le b a.
Proof.
  unfold String.ltb, String.le, String.leb. rewrite (String.compare_antisym b a).
  destruct (String.compare a b); simpl; done.
Qed.

Lemma ltb_true_le (a b : string) : String.ltb a b = true → String.le a b.
Proof.
  unfold String.ltb, String.le, String.leb.
  destruct (String.compare a b); simpl; done.
Qed.

Lemma insert_item_perm x l : Py.insert_item x l ≡ₚ x :: l.
Proof.
  induction l as [|y l IH]; simpl; [done|].
  destruct (String.ltb x.1 y.1); [done|].
  rewrite IH. apply Permutation_swap.
Qed.

Lemma sorted_perm_acc l acc :
  foldl (λ acc x, Py.insert_item x acc) acc l ≡ₚ acc ++ l.
Proof.
  revert acc. induction l as [|x l IH]; intros acc; simpl.
  - by rewrite app_nil_r.
  - rewrite IH, insert_item_perm. by rewrite <- Permutation_middle.
Qed.

Lemma sorted_perm l : Py.sorted l ≡ₚ l.
Proof. unfold Py.sorted. by rewrite sorted_perm_acc. Qed.

Lemma insert_item_sorted x l :
  StronglySorted name_le l → StronglySorted name_le (Py.insert_item x l).
Proof.
  induction 1 as [|y l Hl IH Hy]; simpl.
  - repeat constructor.
  - destruct (String.ltb x.1 y.1) eqn:E.
    + constructor; [by constructor|].
      apply ltb_true_le in E. constructor; [done|].
      eapply Forall_impl; [exact Hy|]. intros z Hz.
      unfold name_le in *. by etrans.
    + constructor; [done|].
      rewrite insert_item_perm. constructor; [|done].
      by apply ltb_false_le.
Qed.

Lemma sorted_sorted_acc l acc :
  StronglySorted name_le acc →
  StronglySorted name_le (foldl (λ acc x, Py.insert_item x acc) acc l).
Proof.
  revert acc. induction l as [|x l IH]; intros acc Hacc; simpl; [done|].
  by apply IH, insert_item_sorted.
Qed.

Lemma sorted_sorted l : StronglySorted name_le (Py.sorted l).
Proof. apply sorted_sorted_acc. constructor. Qed.

Lemma NoDup_fst_inj (l : params) a b :
  NoDup l.*1 → a ∈ l → b ∈ l → a.1 = b.1 → a = b.
Proof.
  induction l as [|x l IH]; simpl; intros Hnd Ha Hb E; [by inv Ha|].
  apply NoDup_cons in Hnd as [Hx Hnd].
  inv Ha; inv Hb; try done.
  - exfalso. apply Hx. rewrite E. by apply list_elem_of_fmap_2.
  - exfalso. apply Hx. rewrite <- E. by apply list_elem_of_fmap_2.
  - by apply IH.
Qed.

Lemma sorted_unique (p1 p2 : params) :
  NoDup p1.*1 → p1 ≡ₚ p2 → Py.sorted p1 = Py.sorted p2.
Proof.
  intros Hnd Hp.
  apply (StronglySorted_unique_strong name_le);
    [|apply sorted_sorted..|by rewrite !sorted_perm].
  intros a b Ha Hb Hab Hba.
  rewrite sorted_perm in Ha. rewrite sorted_perm, <- Hp in Hb.
  apply (NoDup_fst_inj p1); [done..|].
  by apply (anti_symm String.le).
Qed.

Section key_properties.
Context `{Externals}.

(** C4. Two parameter dicts with the same name-value pairs, whatever the
    order they were built in, give the same request key for a path, and
    so the same entry of the cache. *)
Theorem cache_key_order_independent (url : string) (p1 p2 : params) :
  NoDup p1.*1 → p1 ≡ₚ p2 →
  _get_cache_key url p1 = _get_cache_key url p2
  ∧ ∀ s, cached (_get_cache_key url p1) s = cached (_get_cache_key url p2) s.
Proof.
  intros Hnd Hp.
  assert (_get_cache_key url p1 = _get_cache_key url p2) as E.
  { unfold _get_cache_key. by rewrite (sorted_unique p1 p2). }
  split; [done|]. intros s. by rewrite E.
Qed.

End key_properties.

(** ** The cache keeps to its capacity *)

Lemma last_n_length {A} (n : nat) (l : list A) :
  length (last_n n l) = n `min` length l.
Proof. unfold last_n. rewrite length_drop. lia. Qed.

Lemma last_n_all {A} (n : nat) (l : list A) : length l ≤ n → last_n n l = l.
Proof. intros. unfold last_n. by replace (length l - n) with 0 by lia. Qed.

Lemma last_n_app {A} (n : nat) (l1 l2 : list A) :
  last_n n (l1 ++ l2) = last_n (n - length l2) l1 ++ last_n n l2.
Proof.
  unfold last_n. rewrite length_app, drop_app.
  destruct (decide (length l2 ≤ n)).
  - f_equal; f_equal; lia.
  - rewrite !(drop_ge l1) by lia. simpl. f_equal. lia.
Qed.

Lemma last_n_snoc {A} (n : nat) (l : list A) (x : A) :
  1 ≤ n → last_n n (l ++ [x]) = last_n (n - 1) l ++ [x].
Proof.
  intros. rewrite last_n_app. simpl. f_equal. by apply last_n_all.
Qed.

Lemma last_n_last_n {A} (n m : nat) (l : list A) :
  n ≤ m → last_n n (last_n m l) = last_n n l.
Proof.
  intros. unfold last_n at 1 3. rewrite last_n_length.
  unfold last_n. rewrite drop_drop. f_equal. lia.
Qed.

Lemma last_n_subseteq {A} (n : nat) (l : list A) : last_n n l ⊆ l.
Proof.
  unfold last_n. intros x Hx. eapply elem_of_sublist; [done|apply sublist_drop].
Qed.

Lemma find_app_fresh k l1 l2 :
  k ∉ TTLCache.key <$> l1 → TTLCache.find k (l1 ++ l2) = TTLCache.find k l2.
Proof.
  induction l1 as [|e l1 IH]; simpl; intros Hk; [done|].
  apply not_elem_of_cons in Hk as [Hne Hk].
  destruct (String.eqb_spec (TTLCache.key e) k); [congruence|]. by apply IH.
Qed.

Lemma find_fresh k l : k ∉ TTLCache.key <$> l → TTLCache.find k l = None.
Proof.
  intros Hk. rewrite <- (app_nil_r l). by rewrite find_app_fresh.
Qed.

Lemma filter_fresh k (l : list TTLCache.entry) :
  k ∉ TTLCache.key <$> l → filter (λ e, TTLCache.key e ≠ k) l = l.
Proof.
  induction l as [|e l IH]; simpl; intros Hk; [done|].
  apply not_elem_of_cons in Hk as [Hne Hk].
  rewrite filter_cons_True by congruence. by rewrite IH.
Qed.

Lemma put_length c k v t c' :
  TTLCache.put c k v t = Some c' →
  TTLCache.maxsize c' = TTLCache.maxsize c ∧ TTLCache.ttl c' = TTLCache.ttl c
  ∧ length (TTLCache.entries c') ≤ Z.to_nat (TTLCache.maxsize c').
Proof.
  unfold TTLCache.put. destruct (Z.ltb_spec (TTLCache.maxsize c) 1); [done|].
  intros [= <-]; simpl. split_and!; [done..|].
  rewrite length_app. unfold TTLCache.evict_to. rewrite length_drop. simpl. lia.
Qed.

Lemma put_all_snoc c l e :
  put_all c (l ++ [e]) =
  put_all c l ≫= λ c', TTLCache.put c' (TTLCache.key e) (TTLCache.value e) (TTLCache.stamp e).
Proof.
  revert c. induction l as [|x l IH]; intros c; simpl.
  - by destruct (TTLCache.put _ _ _ _).
  - destruct (TTLCache.put c _ _ _); [apply IH|done].
Qed.

(** After a series of stores under distinct keys the cache holds some of
    its earlier entries, then the latest of the stored ones. *)
Lemma put_all_shape c (news : list TTLCache.entry) :
  (1 ≤ TTLCache.maxsize c)%Z →
  NoDup (TTLCache.key <$> news) →
  ∃ old,
    put_all c news =
      Some (TTLCache.Make (TTLCache.maxsize c) (TTLCache.ttl c)
              (old ++ last_n (Z.to_nat (TTLCache.maxsize c)) news))
    ∧ (∀ e, e ∈ old → TTLCache.key e ∉ TTLCache.key <$> news)
    ∧ (news = [] → old = TTLCache.entries c)
    ∧ (news ≠ [] →
       length old + length (last_n (Z.to_nat (TTLCache.maxsize c)) news)
       ≤ Z.to_nat (TTLCache.maxsize c)).
Proof.
  intros Hm. set (M := Z.to_nat (TTLCache.maxsize c)).
  induction news as [|x l IH] using rev_ind; intros Hnd.
  - exists (TTLCache.entries c). split_and!; try done.
    + simpl. unfold last_n. simpl. rewrite app_nil_r. by destruct c.
    + intros e _. set_solver.
  - rewrite fmap_app in Hnd. apply NoDup_app in Hnd as (Hnd & Hx & _).
    destruct (IH Hnd) as (old & Hput & Hold & _ & _).
    assert (TTLCache.key x ∉ TTLCache.key <$> l) as Hfresh.
    { intros Hin. apply (Hx _ Hin). simpl. left. }
    set (old' := last_n (M - 1 - length (last_n M l))
                   (filter (λ e, TTLCache.key e ≠ TTLCache.key x) old)).
    exists old'. split_and!.
    + rewrite put_all_snoc, Hput. simpl. unfold TTLCache.put. simpl.
      destruct (Z.ltb_spec (TTLCache.maxsize c) 1); [lia|].
      do 2 f_equal. fold M.
      rewrite filter_app, (filter_fresh _ (last_n M l)).
      2:{ intros Hin. apply Hfresh.
          apply list_elem_of_fmap in Hin as (e & -> & He).
          apply list_elem_of_fmap_2. by apply last_n_subseteq in He. }
      change (TTLCache.evict_to ?n ?l) with (last_n n l).
      rewrite last_n_app, last_n_last_n by lia.
      rewrite last_n_snoc by lia. rewrite <- app_assoc. by destruct x.
    + intros e He. apply last_n_subseteq in He.
      apply list_elem_of_filter in He as [Hne He].
      rewrite fmap_app. simpl. intros Hin.
      apply elem_of_app in Hin as [Hin|Hin]; [by apply (Hold e He)|].
      apply list_elem_of_singleton in Hin. done.
    + intros Hnil. by destruct l.
    + intros _. unfold old'. rewrite last_n_snoc by lia.
      rewrite length_app, !last_n_length. simpl. lia.
Qed.

Lemma filter_all_valid c now (l : list TTLCache.entry) :
  (∀ e, e ∈ l → (now - TTLCache.stamp e < TTLCache.ttl c)%Z) →
  filter (λ e, TTLCache.valid c now e = true) l = l.
Proof.
  induction l as [|e l IH]; intros Hl; [done|].
  rewrite filter_cons_True.
  - f_equal. apply IH. intros e' He'. apply Hl. by right.
  - unfold TTLCache.valid. apply Z.ltb_lt, Hl. by left.
Qed.

(** C9. The cache never holds more entries than its capacity.  Storing
    capacity + 1 distinct keys (into any cache of capacity at least one)
    leaves exactly the last [maxsize] of them retrievable; the key stored
    first is the one evicted: while fewer than all have been stored it is
    retrievable (within its time to live), and after the last store it is
    absent. *)
Theorem cache_capacity (c : TTLCache.t) (first : TTLCache.entry)
    (rest : list TTLCache.entry) :
  (1 ≤ TTLCache.maxsize c)%Z →
  NoDup (TTLCache.key <$> first :: rest) →
  length rest = Z.to_nat (TTLCache.maxsize c) →
  (∀ c0 k v t c1 now, TTLCache.put c0 k v t = Some c1 →
     length (TTLCache.entries c1) ≤ Z.to_nat (TTLCache.maxsize c0)
     ∧ length (TTLCache.retrievable c1 now) ≤ Z.to_nat (TTLCache.maxsize c0))
  ∧ (∀ pre, pre `prefix_of` rest → pre ≠ rest →
       ∃ c1, put_all c (first :: pre) = Some c1
         ∧ ∀ now, (now - TTLCache.stamp first < TTLCache.ttl c)%Z →
             TTLCache.get c1 (TTLCache.key first) now
             = Some (TTLCache.value first))
  ∧ ∃ c2, put_all c (first :: rest) = Some c2
      ∧ TTLCache.entries c2 = rest
      ∧ ∀ now,
          TTLCache.get c2 (TTLCache.key first) now = None
          ∧ ((∀ e, e ∈ rest → (now - TTLCache.stamp e < TTLCache.ttl c)%Z) →
             TTLCache.retrievable c2 now = TTLCache.key <$> rest
             ∧ length (TTLCache.retrievable c2 now)
               = Z.to_nat (TTLCache.maxsize c)).
Proof.
  intros Hm Hnd Hlen. set (M := Z.to_nat (TTLCache.maxsize c)) in *.
  split_and!.
  - intros c0 k v t c1 now Hput.
    apply put_length in Hput as (-> & _ & Hle). split; [done|].
    unfold TTLCache.retrievable. rewrite length_fmap.
    etrans; [apply length_filter|done].
  - intros pre [k ->] Hne.
    assert (length pre < M) as Hpre.
    { rewrite length_app in Hlen. destruct k; [by rewrite app_nil_r in Hne|].
      simpl in Hlen. lia. }
    assert (NoDup (TTLCache.key <$> first :: pre)) as Hnd'.
    { change (first :: pre ++ k) with ((first :: pre) ++ k) in Hnd.
      rewrite fmap_app in Hnd. by apply NoDup_app in Hnd as (? & _). }
    destruct (put_all_shape c (first :: pre) Hm Hnd') as (old & Hput & Hold & _).
    eexists; split; [exact Hput|]. intros now Hnow.
    unfold TTLCache.get; simpl. fold M.
    rewrite (last_n_all M (first :: pre)) by (simpl; lia).
    assert (TTLCache.key first ∉ TTLCache.key <$> old) as Hfresh.
    { intros Hin. apply list_elem_of_fmap in Hin as (e & He & Hin).
      apply (Hold e Hin). rewrite <- He. simpl. left. }
    rewrite find_app_fresh by done. simpl. rewrite String.eqb_refl.
    unfold TTLCache.valid; simpl.
    by destruct (Z.ltb_spec (now - TTLCache.stamp first) (TTLCache.ttl c)); [|lia].
  - destruct (put_all_shape c (first :: rest) Hm Hnd)
      as (old & Hput & Hold & _ & Hbound).
    fold M in Hput, Hbound.
    assert (last_n M (first :: rest) = rest) as Hlast.
    { unfold last_n. simpl. by replace (S (length rest) - M) with 1 by lia. }
    rewrite Hlast in Hput, Hbound.
    assert (old = []) as ->.
    { specialize (Hbound ltac:(done)). destruct old; [done|simpl in *; lia]. }
    eexists; split; [exact Hput|]. simpl. split; [done|]. intros now. split.
    + unfold TTLCache.get; simpl. rewrite find_fresh; [done|].
      simpl in Hnd. by apply NoDup_cons in Hnd as [? _].
    + intros Hvalid. unfold TTLCache.retrievable; simpl.
      rewrite (filter_all_valid _ now rest) by done.
      by rewrite length_fmap.
Qed.

(** ** The cached GET *)


Lemma get_None_later c k t t' :
  TTLCache.get c k t = None → (t ≤ t')%Z → TTLCache.get c k t' = None.
Proof.
  unfold TTLCache.get, TTLCache.valid. destruct (TTLCache.find k _); [|done].
  destruct (Z.ltb_spec (t - TTLCache.stamp e) (TTLCache.ttl c)); [done|].
  intros _ ?. by destruct (Z.ltb_spec (t' - TTLCache.stamp e) (TTLCache.ttl c)); [lia|].
Qed.

Lemma release_fields k s :
  now (release k s) = now s ∧ heap (release k s) = heap s
  ∧ request_cache (release k s) = request_cache s
  ∧ sent (release k s) = sent s ∧ log (release k s) = log s.
Proof. unfold release. by destruct (_ !! k). Qed.

Lemma release_lock k s lk :
  _request_locks s !! k = Some lk →
  _request_locks (release k s) !! k
  = Some {| locked := false; waiters := waiters lk |}.
Proof. intros E. unfold release. rewrite E. simpl. by rewrite lookup_insert_eq. Qed.

Lemma release_other k k' s :
  k ≠ k' → _request_locks (release k s) !! k' = _request_locks s !! k'.
Proof.
  intros. unfold release. destruct (_ !! k); [|done]. simpl.
  by rewrite lookup_insert_ne.
Qed.

Lemma cached_release k k' s : cached k (release k' s) = cached k s.
Proof.
  unfold cached. by destruct (release_fields k' s) as (-> & _ & -> & _).
Qed.

Section fetch_properties.
Context `{Externals}.

#[local] Arguments _get_cache_key : simpl never.

Lemma enter_hit me url p s l :
  cached (_get_cache_key url p) s = Some l →
  _make_request_enter me url p s = (Done (Return l), s).
Proof. intros E. unfold _make_request_enter. by rewrite E. Qed.

Lemma enter_free me url p s :
  cached (_get_cache_key url p) s = None →
  lock_free (_get_cache_key url p) s →
  _make_request_enter me url p s
  = (AwaitGet url p,
     add_sent url p
       (set_locks (<[_get_cache_key url p := {| locked := true; waiters := [] |}]>
                     (_request_locks s)) s)).
Proof.
  intros E Hfree. unfold _make_request_enter, _get_request_lock, lock_free in *.
  rewrite E. destruct (_request_locks s !! _) as [[b w]|] eqn:El; simpl in *.
  - destruct Hfree as [-> ->]. simpl.
    unfold _make_request_locked, cached in *. simpl. by rewrite E.
  - unfold _make_request_locked, cached in *. simpl. rewrite E. simpl.
    by rewrite insert_insert_eq.
Qed.

Lemma enter_busy me url p s lk :
  cached (_get_cache_key url p) s = None →
  _request_locks s !! _get_cache_key url p = Some lk →
  locked lk = true ∨ waiters lk ≠ [] →
  _make_request_enter me url p s
  = (WaitLock url p,
     set_locks (<[_get_cache_key url p :=
                    {| locked := locked lk; waiters := waiters lk ++ [me] |}]>
                  (_request_locks s)) s).
Proof.
  intros E El Hbusy. unfold _make_request_enter, _get_request_lock.
  rewrite E, El.
  destruct Hbusy as [->|Hw]; [done|].
  rewrite bool_decide_eq_false_2 by done. by rewrite orb_true_r.
Qed.

Lemma wake_eq me url p s ws :
  _request_locks s !! _get_cache_key url p
  = Some {| locked := false; waiters := me :: ws |} →
  _make_request_wake me url p s
  = Some (_make_request_locked url p
            (set_locks (<[_get_cache_key url p := {| locked := true; waiters := ws |}]>
                          (_request_locks s)) s)).
Proof.
  intros El. unfold _make_request_wake. rewrite El.
  by rewrite bool_decide_eq_true_2.
Qed.

Lemma receive_failed url p r s msg :
  upstream_error r = Some msg →
  _make_request_receive url p r s
  = (Raise (HTTPException 500 (Text msg)),
     release (_get_cache_key url p)
       (add_log ("Error making request to " +:+ url +:+ ": ") (Text msg) s)).
Proof.
  intros E. unfold _make_request_receive, upstream_failed.
  destruct r as [m|m|code m json]; simpl in E; simplify_eq; [done..|].
  by destruct ((200 <=? code) && (code <? 300))%Z; simplify_eq.
Qed.


Lemma make_request_free net url p s :
  cached (_get_cache_key url p) s = None →
  lock_free (_get_cache_key url p) s →
  _make_request net url p s
  = Some (_make_request_receive url p (net url p).2
            (tick (net url p).1
               (add_sent url p
                  (set_locks (<[_get_cache_key url p :=
                                  {| locked := true; waiters := [] |}]>
                                (_request_locks s)) s)))).
Proof.
  intros E Hfree. unfold _make_request. rewrite enter_free by done.
  by destruct (net url p).
Qed.



(** C5. A failed GET raises to the caller and writes nothing to the
    cache: the lock is released, the cache is as it was, and the next call
    for the key, whenever it comes, sends the GET again. *)
Theorem failed_fetch_not_cached (net net' : upstream) (url : string)
    (p : params) (s : state) (msg : string) (d : nat) :
  let k := _get_cache_key url p in
  upstream_error (net url p).2 = Some msg →
  (∀ s0 r, upstream_error r = Some msg →
     ∃ s1, _make_request_receive url p r s0
           = (Raise (HTTPException 500 (Text msg)), s1)
       ∧ request_cache s1 = request_cache s0 ∧ heap s1 = heap s0
       ∧ ∀ k', cached k' s1 = cached k' s0)
  ∧ (cached k s = None → lock_free k s →
     ∃ s1, _make_request net url p s
           = Some (Raise (HTTPException 500 (Text msg)), s1)
       ∧ request_cache s1 = request_cache s ∧ heap s1 = heap s
       ∧ cached k s1 = None ∧ lock_free k s1
       ∧ sent s1 = sent s ++ [(url, p)]
       ∧ ∃ r s2, _make_request net' url p (tick d s1) = Some (r, s2)
           ∧ sent s2 = sent s ++ [(url, p); (url, p)]).
Proof.
  intros k Hfail; subst k. split.
  - intros s0 r Hr. eexists. split; [by apply receive_failed|].
    destruct (release_fields (_get_cache_key url p)
      (add_log ("Error making request to " +:+ url +:+ ": ") (Text msg) s0))
      as (Hnow & -> & Hc & _).
    split_and!; [done..|]. intros k'. by rewrite cached_release.
  - intros E Hfree. rewrite make_request_free by done.
    rewrite (receive_failed _ _ _ _ msg) by done.
    set (s1 := release (_get_cache_key url p) _).
    assert (request_cache s1 = request_cache s ∧ heap s1 = heap s
            ∧ sent s1 = sent s ++ [(url, p)]
            ∧ now s1 = (now s + Z.of_nat (net url p).1)%Z) as (Hc & Hh & Hs & Hn).
    { unfold s1. destruct (release_fields (_get_cache_key url p)
        (add_log ("Error making request to " +:+ url +:+ ": ") (Text msg)
           (tick (net url p).1
              (add_sent url p
                 (set_locks (<[_get_cache_key url p := {| locked := true; waiters := [] |}]>
                               (_request_locks s)) s)))))
        as (-> & -> & -> & -> & _). done. }
    assert (lock_free (_get_cache_key url p) s1) as Hfree1.
    { unfold lock_free, s1.
      rewrite (release_lock _ _ {| locked := true; waiters := [] |});
        [done|simpl; by rewrite lookup_insert_eq]. }
    assert (∀ e, cached (_get_cache_key url p) (tick e s1) = None) as Hmiss.
    { intros e. unfold cached in *. simpl. rewrite Hc.
      eapply get_None_later; [exact E|]. lia. }
    eexists. split; [done|]. split_and!; [done..| |done|done|].
    { specialize (Hmiss 0). unfold cached in *. simpl in Hmiss.
      by rewrite Z.add_0_r in Hmiss. }
    rewrite make_request_free by done.
    destruct (_make_request_receive _ _ _ _) as [r s2] eqn:Er.
    exists r, s2. split; [done|].
    assert (sent s2 = sent (tick d s1) ++ [(url, p)]) as ->.
    { revert Er. unfold _make_request_receive.
      set (s3 := tick (net' url p).1 _).
      assert (sent s3 = sent (tick d s1) ++ [(url, p)]) as <- by done.
      clearbody s3. intros Er.
      assert (∀ x, sent (release (_get_cache_key url p) x) = sent x) as Hrel
        by (intros x; by destruct (release_fields (_get_cache_key url p) x) as (_ & _ & _ & -> & _)).
      destruct (net' url p).2 as [m|m|code m [data|]];
        unfold upstream_failed in Er; simpl in Er;
        repeat case_match; simplify_eq; by rewrite Hrel. }
    simpl. rewrite Hs. by rewrite <- app_assoc.
Qed.


End fetch_properties.

(** ** Resolving a subfeddit by name *)

Lemma next_match_none name items :
  no_match name items → next_match name items = Return None.
Proof.
  induction 1 as [|e items (t & Ht & Hne) _ IH]; simpl; [done|].
  rewrite Ht. simpl.
  destruct (String.eqb_spec (Py.lower t) (Py.lower name)); [done|]. exact IH.
Qed.

Lemma next_match_first name before sf after t :
  no_match name before →
  subscript sf "title" = Return (PStr t) → Py.lower t = Py.lower name →
  next_match name (before ++ sf :: after) = Return (Some sf).
Proof.
  intros Hb Ht Hl.
  induction Hb as [|e items (t' & Ht' & Hne) _ IH]; simpl.
  - rewrite Ht. simpl. by rewrite Hl, String.eqb_refl.
  - rewrite Ht'. simpl.
    destruct (String.eqb_spec (Py.lower t') (Py.lower name)); [done|]. exact IH.
Qed.

Lemma subscript_truthy v k x : subscript v k = Return x → Py.truthy v = true.
Proof.
  destruct v as [| | | | |?|f]; simpl; try done. by destruct f.
Qed.

Section resolve_properties.
Context `{Externals}.

(** C6. Resolution looks through the fetched listing for the first entry
    whose title is the name, case aside: with such an entry of id [id] the
    outcome is that of the detail fetch for [id]; with no title matching
    it raises the 404 error. *)
Theorem resolve_subfeddit (net : upstream) (name : string) (s s1 : state)
    (l : nat) (f : list (string * pyval)) (items : list pyval) :
  _make_request net listing_url listing_params s = Some (Return l, s1) →
  heap s1 !! l = Some (PDict f) →
  Py.dict_get "subfeddits" f = Some (PList items) →
  (∀ before sf after title id,
     items = before ++ sf :: after → no_match name before →
     subscript sf "title" = Return (PStr title) →
     Py.lower title = Py.lower name →
     subscript sf "id" = Return id →
     get_subfeddit_by_name net name s
     = except_exception "Error finding subfeddit by name: "
         (_make_request net detail_url [("subfeddit_id", id)]) s1
     ∧ ∀ d s2,
         _make_request net detail_url [("subfeddit_id", id)] s1
         = Some (Return d, s2) →
         get_subfeddit_by_name net name s = Some (Return d, s2))
  ∧ (no_match name items →
     get_subfeddit_by_name net name s = Some (Raise (not_found name), s1)).
Proof.
  intros Hlist Hl Hf. split.
  - intros before sf after title id -> Hb Ht Hlow Hid.
    assert (get_subfeddit_by_name net name s
            = except_exception "Error finding subfeddit by name: "
                (_make_request net detail_url [("subfeddit_id", id)]) s1) as E.
    { unfold get_subfeddit_by_name, except_exception, bind, deref, lift.
      unfold listing_url, listing_params in Hlist. rewrite Hlist, Hl. simpl.
      rewrite Hf. simpl.
      rewrite (next_match_first name before sf after title) by done.
      rewrite (subscript_truthy sf "id" id) by done. by rewrite Hid. }
    split; [done|]. intros d s2 Hd. rewrite E.
    unfold except_exception. by rewrite Hd.
  - intros Hno.
    unfold get_subfeddit_by_name, except_exception, bind, deref, lift, raise.
    unfold listing_url, listing_params in Hlist. rewrite Hlist, Hl. simpl.
    rewrite Hf. simpl. by rewrite next_match_none.
Qed.

(** C7, as the code has it. A listing without the [subfeddits] field is
    read as an empty listing, so resolution raises the 404 error; an entry
    without a title met before any match raises the 500 error with the
    text of the [KeyError]. *)
Theorem malformed_listing (net : upstream) (name : string) (s s1 : state)
    (l : nat) (f : list (string * pyval)) :
  _make_request net listing_url listing_params s = Some (Return l, s1) →
  heap s1 !! l = Some (PDict f) →
  (Py.dict_get "subfeddits" f = None →
   get_subfeddit_by_name net name s = Some (Raise (not_found name), s1))
  ∧ (∀ before g after,
       Py.dict_get "subfeddits" f = Some (PList (before ++ PDict g :: after)) →
       no_match name before → Py.dict_get "title" g = None →
       get_subfeddit_by_name net name s
       = Some (Raise (HTTPException 500 (StrOf (KeyError "title"))),
               add_log "Error finding subfeddit by name: "
                 (StrOf (KeyError "title")) s1)).
Proof.
  intros Hlist Hl. split.
  - intros Hf.
    unfold get_subfeddit_by_name, except_exception, bind, deref, lift, raise.
    unfold listing_url, listing_params in Hlist. rewrite Hlist, Hl. simpl.
    by rewrite Hf.
  - intros before g after Hf Hb Hg.
    unfold get_subfeddit_by_name, except_exception, bind, deref, lift, raise.
    unfold listing_url, listing_params in Hlist. rewrite Hlist, Hl. simpl.
    rewrite Hf. simpl.
    assert (next_match name (before ++ PDict g :: after)
            = Raise (Builtin (KeyError "title"))) as ->; [|done].
    clear Hf. induction Hb as [|e items (t' & Ht' & Hne) _ IH]; simpl.
    + by rewrite Hg.
    + rewrite Ht'. simpl.
      by destruct (String.eqb_spec (Py.lower t') (Py.lower name)).
Qed.


End resolve_properties.

(** ** Concurrent calls for one key *)

Section dedup_properties.
Context `{Externals}.

#[local] Arguments _get_cache_key : simpl never.

Lemma release_now k s : now (release k s) = now s.
Proof. by destruct (release_fields k s) as (-> & _). Qed.







Lemma tick_fields d s :
  heap (tick d s) = heap s ∧ request_cache (tick d s) = request_cache s
  ∧ _request_locks (tick d s) = _request_locks s
  ∧ sent (tick d s) = sent s ∧ log (tick d s) = log s
  ∧ now (tick d s) = (now s + Z.of_nat d)%Z.
Proof. done. Qed.


Section step.
Variables (s0 : state) (url : string) (p : params) (n : nat).
Hypothesis miss0 : cached (_get_cache_key url p) s0 = None.
Hypothesis room : (1 ≤ TTLCache.maxsize (request_cache s0))%Z.







End step.




End dedup_properties.

(** ** The event loop: locks and calls agree *)

Section loop_properties.
Context `{Externals}.

#[local] Arguments _get_cache_key : simpl never.

(** The three ways a call can enter. *)
Lemma enter_cases me url p s :
  (∃ l, cached (_get_cache_key url p) s = Some l
        ∧ _make_request_enter me url p s = (Done (Return l), s))
  ∨ (cached (_get_cache_key url p) s = None
     ∧ lock_free (_get_cache_key url p) s
     ∧ _make_request_enter me url p s
       = (AwaitGet url p,
          add_sent url p
            (set_locks (<[_get_cache_key url p := {| locked := true; waiters := [] |}]>
                          (_request_locks s)) s)))
  ∨ (cached (_get_cache_key url p) s = None
     ∧ ∃ lk, _request_locks s !! _get_cache_key url p = Some lk
         ∧ (locked lk = true ∨ waiters lk ≠ [])
         ∧ _make_request_enter me url p s
           = (WaitLock url p,
              set_locks (<[_get_cache_key url p :=
                             {| locked := locked lk; waiters := waiters lk ++ [me] |}]>
                           (_request_locks s)) s)).
Proof.
  destruct (cached (_get_cache_key url p) s) as [l|] eqn:E.
  { left. exists l. split; [done|]. by apply enter_hit. }
  right.
  destruct (_request_locks s !! _get_cache_key url p) as [[b ws]|] eqn:El.
  - destruct b.
    + right. split; [done|]. eexists. split; [done|]. split; [by left|].
      by apply (enter_busy _ _ _ _ {| locked := true; waiters := ws |}); auto.
    + destruct ws as [|w ws].
      * left. split; [done|]. split; [by unfold lock_free; rewrite El|].
        apply enter_free; [done|]. by unfold lock_free; rewrite El.
      * right. split; [done|]. eexists. split; [done|]. split; [by right|].
        by apply (enter_busy _ _ _ _ {| locked := false; waiters := w :: ws |});
          auto.
  - left. split; [done|]. split; [by unfold lock_free; rewrite El|].
    apply enter_free; [done|]. by unfold lock_free; rewrite El.
Qed.

Lemma release_insert k lk m s :
  _request_locks (release k (set_locks (<[k := lk]> m) s))
  = <[k := {| locked := false; waiters := waiters lk |}]> m.
Proof.
  unfold release. simpl. rewrite lookup_insert_eq. simpl.
  by rewrite insert_insert_eq.
Qed.

(** The two ways a waiter can resume. *)
Lemma wake_cases me url p s tk s' :
  _make_request_wake me url p s = Some (tk, s') →
  ∃ ws, _request_locks s !! _get_cache_key url p
        = Some {| locked := false; waiters := me :: ws |}
    ∧ ((∃ l, cached (_get_cache_key url p) s = Some l
             ∧ tk = Done (Return l)
             ∧ _request_locks s'
               = <[_get_cache_key url p := {| locked := false; waiters := ws |}]>
                   (_request_locks s)
             ∧ sent s' = sent s ∧ heap s' = heap s
             ∧ request_cache s' = request_cache s)
       ∨ (cached (_get_cache_key url p) s = None
          ∧ tk = AwaitGet url p
          ∧ _request_locks s'
            = <[_get_cache_key url p := {| locked := true; waiters := ws |}]>
                (_request_locks s)
          ∧ sent s' = sent s ++ [(url, p)] ∧ heap s' = heap s
          ∧ request_cache s' = request_cache s)).
Proof.
  unfold _make_request_wake.
  destruct (_request_locks s !! _get_cache_key url p) as [[[] [|w ws]]|] eqn:El;
    try done.
  case_bool_decide; [|done]. subst w. intros [= E]. exists ws. split; [done|].
  revert E. unfold _make_request_locked.
  set (s2 := set_locks _ s).
  assert (cached (_get_cache_key url p) s2 = cached (_get_cache_key url p) s)
    as -> by done.
  destruct (cached (_get_cache_key url p) s) as [l|]; intros [= <- <-].
  - left. exists l. split_and!; try done.
    + apply release_insert.
    + by destruct (release_fields (_get_cache_key url p) s2) as (_ & _ & _ & -> & _).
    + by destruct (release_fields (_get_cache_key url p) s2) as (_ & -> & _).
    + by destruct (release_fields (_get_cache_key url p) s2) as (_ & _ & -> & _).
  - right. by split_and!.
Qed.

Lemma receive_locks url p r s lk :
  _request_locks s !! _get_cache_key url p = Some lk →
  _request_locks (_make_request_receive url p r s).2
  = <[_get_cache_key url p := {| locked := false; waiters := waiters lk |}]>
      (_request_locks s).
Proof.
  intros El. unfold _make_request_receive, upstream_failed.
  destruct r as [m|m|code m [data|]]; simpl;
    repeat case_match; simplify_eq; simpl;
    unfold release; simpl; by rewrite El.
Qed.

(** A step that moves the call [t], after the key [k0], and sets the lock
    of [k0] keeps the agreement when the new lock and the calls after
    [k0] agree. *)
Lemma coherent_update w t tk tk' k0 lk' s' :
  coherent w → tasks w !! t = Some tk → key_of tk = Some k0 →
  key_of tk' = Some k0 ∨ key_of tk' = None →
  _request_locks s' = <[k0 := lk']> (_request_locks (shared w)) →
  (NoDup (waiters lk')
   ∧ ∀ t', t' ∈ waiters lk' →
       ∃ url p, <[t := tk']> (tasks w) !! t' = Some (WaitLock url p)
                ∧ _get_cache_key url p = k0) →
  (∀ t' url p, <[t := tk']> (tasks w) !! t' = Some (WaitLock url p) →
     _get_cache_key url p = k0 → t' ∈ waiters lk') →
  (∀ t' url p, <[t := tk']> (tasks w) !! t' = Some (AwaitGet url p) →
     _get_cache_key url p = k0 → locked lk' = true) →
  (locked lk' = true →
   ∃ t' url p, <[t := tk']> (tasks w) !! t' = Some (AwaitGet url p)
               ∧ _get_cache_key url p = k0) →
  (∀ t1 t2 url p url' p',
     <[t := tk']> (tasks w) !! t1 = Some (AwaitGet url p) →
     <[t := tk']> (tasks w) !! t2 = Some (AwaitGet url' p') →
     _get_cache_key url p = k0 → _get_cache_key url' p' = k0 → t1 = t2) →
  coherent (World s' (<[t := tk']> (tasks w))).
Proof.
  intros [Ha Hb Hc Hd He] Ht Hk Hk' Hlocks Ha' Hb' Hc' Hd' He'.
  assert (∀ t' tk1, tasks w !! t' = Some tk1 → key_of tk1 ≠ Some k0 → t' ≠ t)
    as Hother by (intros t' tk1 E Hne ->; simplify_eq).
  assert (∀ t' tk1, <[t := tk']> (tasks w) !! t' = Some tk1 →
            key_of tk1 ≠ Some k0 → key_of tk1 ≠ None →
            t' ≠ t ∧ tasks w !! t' = Some tk1) as Hnew.
  { intros t' tk1 E Hne Hne'.
    apply list_lookup_insert_Some in E as [(-> & -> & _)|[? ?]]; [|done].
    by destruct Hk'. }
  constructor; simpl.
  - intros k lk. rewrite Hlocks.
    destruct (decide (k = k0)) as [->|Hne].
    { rewrite lookup_insert_eq. by intros [= <-]. }
    rewrite lookup_insert_ne by done. intros El.
    destruct (Ha k lk El) as [Hnd Hw]. split; [done|].
    intros t' Ht'. destruct (Hw t' Ht') as (url & p & E & Hkey).
    exists url, p. split; [|done].
    rewrite list_lookup_insert_ne; [done|].
    intros ->. eapply Hother; [exact E| |done]. simpl. congruence.
  - intros t' url p E. rewrite Hlocks.
    destruct (decide (_get_cache_key url p = k0)) as [Hkey|Hne].
    { rewrite Hkey, lookup_insert_eq. eexists. split; [done|]. by eapply Hb'. }
    rewrite lookup_insert_ne by done.
    destruct (Hnew t' _ E) as [_ E']; [simpl; congruence|done|].
    by apply Hb in E'.
  - intros t' url p E. rewrite Hlocks.
    destruct (decide (_get_cache_key url p = k0)) as [Hkey|Hne].
    { rewrite Hkey, lookup_insert_eq. eexists. split; [done|]. by eapply Hc'. }
    rewrite lookup_insert_ne by done.
    destruct (Hnew t' _ E) as [_ E']; [simpl; congruence|done|].
    by apply Hc in E'.
  - intros k lk. rewrite Hlocks.
    destruct (decide (k = k0)) as [->|Hne].
    { rewrite lookup_insert_eq. intros [= <-]. apply Hd'. }
    rewrite lookup_insert_ne by done. intros El Hl.
    destruct (Hd k lk El Hl) as (t' & url & p & E & Hkey).
    exists t', url, p. split; [|done].
    rewrite list_lookup_insert_ne; [done|].
    intros ->. eapply Hother; [exact E| |done]. simpl. congruence.
  - intros t1 t2 url p url' p' E1 E2 Hkey.
    destruct (decide (_get_cache_key url p = k0)) as [Hk0|Hne].
    { eapply He'; [done..|congruence]. }
    destruct (Hnew t1 _ E1) as [_ E1']; [simpl; congruence|done|].
    destruct (Hnew t2 _ E2) as [_ E2']; [simpl; congruence|done|].
    by eapply He.
Qed.

Ltac split_insert E :=
  apply list_lookup_insert_Some in E as [(-> & E & _)|[? E]]; simplify_eq.

Lemma coherent_finish_start w t url p r :
  coherent w → tasks w !! t = Some (Start url p) →
  coherent (World (shared w) (<[t := Done r]> (tasks w))).
Proof.
  intros [Ha Hb Hc Hd He] Ht. constructor; simpl.
  - intros k lk El. destruct (Ha k lk El) as [Hnd Hw]. split; [done|].
    intros t' Ht'. destruct (Hw t' Ht') as (u & q & E & Hkey).
    exists u, q. split; [|done]. rewrite list_lookup_insert_ne; [done|].
    intros ->. simplify_eq.
  - intros t' u q E. split_insert E. by eapply Hb.
  - intros t' u q E. split_insert E. by eapply Hc.
  - intros k lk El Hl. destruct (Hd k lk El Hl) as (t' & u & q & E & Hkey).
    exists t', u, q. split; [|done]. rewrite list_lookup_insert_ne; [done|].
    intros ->. simplify_eq.
  - intros t1 t2 u q u' q' E1 E2. split_insert E1. split_insert E2.
    by eapply He.
Qed.

Lemma step_coherent a w w' :
  coherent w → step a w = Some w' → coherent w'.
Proof.
  intros Hco Hstep. pose proof Hco as [Ha Hb Hc Hd He].
  destruct a as [t|t r|d]; simpl in Hstep.
  - destruct (tasks w !! t) as [[url p|url p|url p|r]|] eqn:Et; try done.
    + (* a call enters *)
      assert (t < length (tasks w)) as Hlt by (by eapply lookup_lt_Some).
      destruct (enter_cases t url p (shared w))
        as [(l & _ & E)|[(Hmiss & Hfree & E)|(Hmiss & lk & El & Hbusy & E)]];
        rewrite E in Hstep; simplify_eq.
      * by eapply coherent_finish_start.
      * unfold lock_free in Hfree.
        eapply (coherent_update w t _ (AwaitGet url p) (_get_cache_key url p)
                  {| locked := true; waiters := [] |});
          [done|done|done|by left|done|..]; simpl.
        -- split; [constructor|]. intros t' Ht'. by apply elem_of_nil in Ht'.
        -- intros t' u q E' Hkey. split_insert E'.
           destruct (Hb _ _ _ E') as (lk & El & Hin).
           rewrite Hkey in El. rewrite El in Hfree. destruct Hfree as [_ Hw].
           by rewrite Hw in Hin.
        -- done.
        -- intros _. exists t, url, p. by rewrite list_lookup_insert_eq.
        -- intros t1 t2 u q u' q' E1 E2 Hk1 Hk2.
           assert (∀ t' u q, <[t:=AwaitGet url p]> (tasks w) !! t'
                             = Some (AwaitGet u q) →
                     _get_cache_key u q = _get_cache_key url p → t' = t) as Hme.
           { intros t' u0 q0 E' Hkey.
             destruct (decide (t' = t)) as [|Hne]; [done|].
             rewrite list_lookup_insert_ne in E' by done.
             destruct (Hc _ _ _ E') as (lk & El & Hl).
             rewrite Hkey in El. rewrite El in Hfree.
             destruct Hfree as [Hl' _]. congruence. }
           by rewrite (Hme _ _ _ E1 Hk1), (Hme _ _ _ E2 Hk2).
      * destruct (Ha _ _ El) as [Hnd Hw].
        eapply (coherent_update w t _ (WaitLock url p) (_get_cache_key url p)
                  {| locked := locked lk; waiters := waiters lk ++ [t] |});
          [done|done|done|by left|done|..]; simpl.
        -- split.
           ++ apply NoDup_app. split_and!; [done| |apply NoDup_singleton].
              intros x Hx Hxt. apply list_elem_of_singleton in Hxt as ->.
              destruct (Hw _ Hx) as (u & q & E' & _). simplify_eq.
           ++ intros t' Ht'. apply elem_of_app in Ht' as [Ht'|Ht'].
              ** destruct (Hw _ Ht') as (u & q & E' & Hkey).
                 exists u, q. split; [|done].
                 rewrite list_lookup_insert_ne; [done|]. intros ->. simplify_eq.
              ** apply list_elem_of_singleton in Ht' as ->.
                 exists url, p. by rewrite list_lookup_insert_eq.
        -- intros t' u q E' Hkey. apply elem_of_app.
           destruct (decide (t' = t)) as [->|Hne].
           { right. by apply list_elem_of_singleton. }
           rewrite list_lookup_insert_ne in E' by done.
           destruct (Hb _ _ _ E') as (lk2 & El2 & Hin).
           rewrite Hkey, El in El2. simplify_eq. by left.
        -- intros t' u q E' Hkey. split_insert E'.
           destruct (Hc _ _ _ E') as (lk2 & El2 & Hl).
           rewrite Hkey, El in El2. by simplify_eq.
        -- intros Hl. destruct (Hd _ _ El Hl) as (t' & u & q & E' & Hkey).
           exists t', u, q. split; [|done].
           rewrite list_lookup_insert_ne; [done|]. intros ->. simplify_eq.
        -- intros t1 t2 u q u' q' E1 E2 Hk1 Hk2.
           split_insert E1. split_insert E2. eapply He; [done..|congruence].
    + (* a waiter resumes *)
      destruct (_make_request_wake t url p (shared w)) as [[tk s']|] eqn:Ew;
        [|done].
      simplify_eq.
      assert (t < length (tasks w)) as Hlt by (by eapply lookup_lt_Some).
      destruct (wake_cases _ _ _ _ _ _ Ew) as (ws & El & Hcase).
      destruct (Ha _ _ El) as [Hnd Hw]. simpl in Hnd, Hw.
      apply NoDup_cons in Hnd as [Hnotin Hnd].
      assert (∀ t' u q, tasks w !! t' = Some (AwaitGet u q) →
                _get_cache_key u q = _get_cache_key url p → False) as Hnone.
      { intros t' u q E' Hkey. destruct (Hc _ _ _ E') as (lk2 & El2 & Hl).
        rewrite Hkey, El in El2. by simplify_eq. }
      assert (∀ tk', (∀ u q, tk' ≠ WaitLock u q) →
                ∀ t', t' ∈ ws →
                  ∃ u q, <[t := tk']> (tasks w) !! t' = Some (WaitLock u q)
                         ∧ _get_cache_key u q = _get_cache_key url p) as Hws.
      { intros tk' _ t' Ht'.
        destruct (Hw t') as (u & q & E' & Hkey); [by right|].
        exists u, q. split; [|done].
        rewrite list_lookup_insert_ne; [done|]. by intros ->. }
      assert (∀ tk', (∀ u q, tk' ≠ WaitLock u q) →
                ∀ t' u q, <[t := tk']> (tasks w) !! t' = Some (WaitLock u q) →
                  _get_cache_key u q = _get_cache_key url p → t' ∈ ws) as Hqueued.
      { intros tk' Hnw t' u q E' Hkey.
        apply list_lookup_insert_Some in E' as [(-> & -> & _)|[Hne E']];
          [by destruct (Hnw u q)|].
        destruct (Hb _ _ _ E') as (lk2 & El2 & Hin).
        rewrite Hkey, El in El2. simplify_eq. simpl in Hin.
        apply elem_of_cons in Hin as [|]; [congruence|done]. }
      destruct Hcase as [(l & _ & -> & Hlocks & _)|(_ & -> & Hlocks & _)].
      * eapply (coherent_update w t _ (Done (Return l)) (_get_cache_key url p)
                  {| locked := false; waiters := ws |});
          [done|done|done|by right|done|..]; simpl.
        -- split; [done|]. by apply Hws.
        -- by apply Hqueued.
        -- intros t' u q E' Hkey. split_insert E'.
           by destruct (Hnone _ _ _ E' Hkey).
        -- done.
        -- intros t1 t2 u q u' q' E1 E2 Hk1 Hk2. split_insert E1.
           by destruct (Hnone _ _ _ E1 Hk1).
      * eapply (coherent_update w t _ (AwaitGet url p) (_get_cache_key url p)
                  {| locked := true; waiters := ws |});
          [done|done|done|by left|done|..]; simpl.
        -- split; [done|]. by apply Hws.
        -- by apply Hqueued.
        -- done.
        -- intros _. exists t, url, p. by rewrite list_lookup_insert_eq.
        -- intros t1 t2 u q u' q' E1 E2 Hk1 Hk2.
           assert (∀ t' u q, <[t:=AwaitGet url p]> (tasks w) !! t'
                             = Some (AwaitGet u q) →
                     _get_cache_key u q = _get_cache_key url p → t' = t) as Hme.
           { intros t' u0 q0 E' Hkey.
             destruct (decide (t' = t)) as [|Hne]; [done|].
             rewrite list_lookup_insert_ne in E' by done.
             by destruct (Hnone _ _ _ E' Hkey). }
           by rewrite (Hme _ _ _ E1 Hk1), (Hme _ _ _ E2 Hk2).
  - (* an answer arrives *)
    destruct (tasks w !! t) as [[url p|url p|url p|r']|] eqn:Et; try done.
    destruct (Hc _ _ _ Et) as (lk & El & Hl).
    pose proof (receive_locks url p r (shared w) lk El) as Hlocks.
    destruct (_make_request_receive url p r (shared w)) as [res s'].
    simplify_eq. simpl in Hlocks.
    destruct (Ha _ _ El) as [Hnd Hw].
    eapply (coherent_update w t _ (Done res) (_get_cache_key url p)
              {| locked := false; waiters := waiters lk |});
      [done|done|done|by right|done|..]; simpl.
    + split; [done|]. intros t' Ht'.
      destruct (Hw _ Ht') as (u & q & E' & Hkey).
      exists u, q. split; [|done].
      rewrite list_lookup_insert_ne; [done|]. intros ->. simplify_eq.
    + intros t' u q E' Hkey. split_insert E'.
      destruct (Hb _ _ _ E') as (lk2 & El2 & Hin).
      rewrite Hkey, El in El2. by simplify_eq.
    + intros t' u q E' Hkey. split_insert E'.
      by destruct (He _ _ _ _ _ _ E' Et Hkey).
    + done.
    + intros t1 t2 u q u' q' E1 E2 Hk1 Hk2.
      split_insert E1. split_insert E2. eapply He; [done..|congruence].
  - simplify_eq. by constructor.
Qed.

Lemma run_coherent acts w w' :
  coherent w → run acts w = Some w' → coherent w'.
Proof.
  revert w. induction acts as [|a acts IH]; intros w Hco; simpl.
  - by intros [= <-].
  - destruct (step a w) as [w1|] eqn:E; [|done].
    apply IH. by eapply step_coherent.
Qed.

Lemma clean_coherent w : clean w → coherent w.
Proof.
  intros [Hall Hlocks].
  assert (∀ t tk, tasks w !! t = Some tk → is_start tk = true) as Hst
    by (intros t tk E; by eapply (Forall_lookup_1 _ _ _ _ Hall)).
  constructor.
  - intros k lk El. destruct (Hlocks _ _ El) as [_ ->].
    split; [constructor|]. intros t Ht. by apply elem_of_nil in Ht.
  - intros t url p E. by apply Hst in E.
  - intros t url p E. by apply Hst in E.
  - intros k lk El Hl. destruct (Hlocks _ _ El) as [Hl' _]. congruence.
  - intros t t' url p url' p' E. by apply Hst in E.
Qed.

(** X1. Mutual exclusion: however calls issued from a clean start are
    scheduled and answered, two different calls never have a GET for the
    same key in flight at once, and a call with its GET in flight holds
    the lock of its key. *)
Theorem one_fetch_in_flight (w0 w : world) (acts : list action)
    (t t' : nat) (url url' : string) (p p' : params) :
  clean w0 → run acts w0 = Some w →
  tasks w !! t = Some (AwaitGet url p) →
  tasks w !! t' = Some (AwaitGet url' p') →
  _get_cache_key url p = _get_cache_key url' p' →
  t = t'
  ∧ ∃ lk, _request_locks (shared w) !! _get_cache_key url p = Some lk
          ∧ locked lk = true.
Proof.
  intros Hclean Hrun E E' Hkey.
  pose proof (run_coherent _ _ _ (clean_coherent _ Hclean) Hrun) as Hco.
  split; [by eapply (one_fetch w Hco)|by eapply (fetching_holds w Hco)].
Qed.

Lemma remaining_insert s s' (ts : list task) t tk tk' :
  ts !! t = Some tk → weight tk' < weight tk →
  remaining (World s' (<[t := tk']> ts)) < remaining (World s ts).
Proof.
  unfold remaining; simpl. revert t.
  induction ts as [|x ts IH]; intros [|t] E Hlt; simplify_eq/=; [lia|].
  specialize (IH t E Hlt). lia.
Qed.

Lemma locked_weight url p s : weight (_make_request_locked url p s).1 ≤ 1.
Proof. unfold _make_request_locked. by destruct (cached _ s); simpl; lia. Qed.

(** While some call is not done, some action is enabled and brings the
    calls nearer their end, whatever the network answers. *)
Lemma progress (net : nat → reply) w :
  coherent w → ¬ Forall (λ tk, is_done tk = true) (tasks w) →
  ∃ a w', answers net a ∧ step a w = Some w' ∧ remaining w' < remaining w.
Proof.
  intros [Ha Hb Hc Hd He] Hnot.
  destruct (decide (Exists (λ tk, is_start tk = true) (tasks w))) as [Hs|Hs].
  { apply Exists_exists in Hs as ([url p| | |] & Hin & Hst); try done.
    apply list_elem_of_lookup in Hin as [t Et].
    exists (Run t). simpl. rewrite Et.
    destruct (enter_cases t url p (shared w))
      as [(l & _ & E)|[(_ & _ & E)|(_ & lk & _ & _ & E)]]; rewrite E;
      eexists; (split; [done|]); (split; [done|]);
      destruct w as [s ts]; apply (remaining_insert _ _ _ _ _ _ Et);
      simpl; lia. }
  destruct (decide (Exists (λ tk, is_await tk = true) (tasks w))) as [Hw|Hw].
  { apply Exists_exists in Hw as ([| |url p|] & Hin & Hst); try done.
    apply list_elem_of_lookup in Hin as [t Et].
    exists (Deliver t (net t)). simpl. rewrite Et.
    destruct (_make_request_receive url p (net t) (shared w)) as [res s'].
    eexists. split; [done|]. split; [done|].
    destruct w as [s ts]. apply (remaining_insert _ _ _ _ _ _ Et). simpl. lia. }
  apply not_Forall_Exists in Hnot; [|apply _].
  apply Exists_exists in Hnot as (tk & Hin & Hnd).
  apply list_elem_of_lookup in Hin as [t Et].
  destruct tk as [url p|url p|url p|r]; simpl in Hnd.
  - destruct Hs. apply Exists_exists. exists (Start url p).
    split; [by eapply list_elem_of_lookup_2|done].
  - destruct (Hb _ _ _ Et) as (lk & El & Hin).
    destruct lk as [[] ws]; simpl in *.
    { destruct (Hd _ _ El eq_refl) as (t' & u & q & E' & _).
      destruct Hw. apply Exists_exists. exists (AwaitGet u q).
      split; [by eapply list_elem_of_lookup_2|done]. }
    destruct ws as [|h ws]; [by apply elem_of_nil in Hin|].
    destruct (Ha _ _ El) as [_ Hhead]. simpl in Hhead.
    destruct (Hhead h) as (u & q & Eh & Hkey); [by left|].
    exists (Run h). simpl. rewrite Eh.
    rewrite <- Hkey in El. rewrite (wake_eq _ _ _ _ ws El).
    pose proof (locked_weight u q
      (set_locks (<[_get_cache_key u q := {| locked := true; waiters := ws |}]>
                    (_request_locks (shared w))) (shared w))) as Hle.
    destruct (_make_request_locked u q _) as [tk' s'].
    eexists. split; [done|]. split; [done|].
    destruct w as [s ts]. apply (remaining_insert _ _ _ _ _ _ Eh).
    simpl in *. lia.
  - destruct Hw. apply Exists_exists. exists (AwaitGet url p).
    split; [by eapply list_elem_of_lookup_2|done].
  - by destruct Hnd.
Qed.

Lemma coherent_completes (net : nat → reply) n w :
  coherent w → remaining w ≤ n →
  ∃ acts w', Forall (answers net) acts ∧ run acts w = Some w'
    ∧ Forall (λ tk, is_done tk = true) (tasks w') ∧ length acts ≤ n.
Proof.
  revert w. induction n as [|n IH]; intros w Hco Hn.
  - exists [], w. split_and!; [constructor|done| |simpl; lia].
    destruct (decide (Forall (λ tk, is_done tk = true) (tasks w))) as [|Hnot];
      [done|].
    destruct (progress net w Hco Hnot) as (a & w' & _ & _ & Hlt). lia.
  - destruct (decide (Forall (λ tk, is_done tk = true) (tasks w))) as [Hd|Hnot].
    { exists [], w. split_and!; [constructor|done|done|simpl; lia]. }
    destruct (progress net w Hco Hnot) as (a & w1 & Hans & Hstep & Hlt).
    destruct (IH w1) as (acts & w' & Hall & Hrun & Hdone & Hlen);
      [by eapply step_coherent|lia|].
    exists (a :: acts), w'. split_and!; [by constructor| |done|simpl; lia].
    simpl. by rewrite Hstep.
Qed.

Lemma remaining_bound w : remaining w ≤ 3 * length (tasks w).
Proof.
  unfold remaining. destruct w as [s ts]; simpl.
  induction ts as [|tk ts IH]; [done|].
  rewrite fmap_cons. cbn [sum_list sum_list_with length].
  destruct tk; simpl; lia.
Qed.

(** X2. No deadlock: from every world that calls issued from a clean
    start can reach, whatever the network answers to each call, some
    schedule brings every call to its end, in at most three steps for
    each call. *)
Theorem calls_complete (w0 w : world) (acts : list action) (net : nat → reply) :
  clean w0 → run acts w0 = Some w →
  ∃ acts' w', Forall (answers net) acts' ∧ run acts' w = Some w'
    ∧ Forall (λ tk, is_done tk = true) (tasks w')
    ∧ length acts' ≤ remaining w ∧ remaining w ≤ 3 * length (tasks w).
Proof.
  intros Hclean Hrun.
  pose proof (run_coherent _ _ _ (clean_coherent _ Hclean) Hrun) as Hco.
  destruct (coherent_completes net (remaining w) w Hco (le_n _))
    as (acts' & w' & ? & ? & ? & ?).
  exists acts', w'. split_and!; try done. apply remaining_bound.
Qed.

Lemma release_dom k s :
  dom (_request_locks (release k s)) = dom (_request_locks s).
Proof.
  unfold release. destruct (_request_locks s !! k) eqn:E; [|done]. simpl.
  by apply dom_insert_lookup_L.
Qed.

Lemma release_heap k s : heap (release k s) = heap s.
Proof. by destruct (release_fields k s) as (_ & -> & _). Qed.

Lemma release_sent k s : sent (release k s) = sent s.
Proof. by destruct (release_fields k s) as (_ & _ & _ & -> & _). Qed.

Lemma release_cache k s : request_cache (release k s) = request_cache s.
Proof. by destruct (release_fields k s) as (_ & _ & -> & _). Qed.

Lemma receive_grows url p r s :
  let s' := (_make_request_receive url p r s).2 in
  dom (_request_locks s') = dom (_request_locks s)
  ∧ heap s `prefix_of` heap s' ∧ sent s' = sent s.
Proof.
  unfold _make_request_receive, upstream_failed.
  destruct r as [m|m|code m [data|]]; simpl;
    repeat case_match; simplify_eq; simpl;
    rewrite release_dom, release_heap, release_sent; simpl;
    (split_and!; [done| |done]); try done; by apply prefix_app_r.
Qed.

Lemma enter_grows me url p s :
  let s' := (_make_request_enter me url p s).2 in
  dom (_request_locks s) ⊆ dom (_request_locks s')
  ∧ heap s' = heap s ∧ sent s `prefix_of` sent s'.
Proof.
  destruct (enter_cases me url p s)
    as [(l & _ & E)|[(_ & _ & E)|(_ & lk & _ & _ & E)]]; rewrite E; simpl.
  - done.
  - split_and!; [apply dom_insert_subseteq|done|by apply prefix_app_r].
  - split_and!; [apply dom_insert_subseteq|done|done].
Qed.

(** X3. What the event loop never does: a step never removes a lock from
    the registry, never changes or drops a payload object, never takes a
    sent GET back, and never alters the outcome of a call that is done. *)
Theorem run_only_grows (acts : list action) (w w' : world) :
  run acts w = Some w' →
  dom (_request_locks (shared w)) ⊆ dom (_request_locks (shared w'))
  ∧ heap (shared w) `prefix_of` heap (shared w')
  ∧ sent (shared w) `prefix_of` sent (shared w')
  ∧ ∀ t r, tasks w !! t = Some (Done r) → tasks w' !! t = Some (Done r).
Proof.
  revert w. induction acts as [|a acts IH]; intros w; simpl.
  { by intros [= <-]. }
  destruct (step a w) as [w1|] eqn:Hstep; [|done]. intros Hrun.
  destruct (IH _ Hrun) as (Hd & Hh & Hs & Ht).
  assert (dom (_request_locks (shared w)) ⊆ dom (_request_locks (shared w1))
          ∧ heap (shared w) `prefix_of` heap (shared w1)
          ∧ sent (shared w) `prefix_of` sent (shared w1)
          ∧ ∀ t r, tasks w !! t = Some (Done r) → tasks w1 !! t = Some (Done r))
    as (Hd1 & Hh1 & Hs1 & Ht1).
  { destruct a as [t|t r|d]; simpl in Hstep.
    - destruct (tasks w !! t) as [[url p|url p|url p|r]|] eqn:Et; try done.
      + pose proof (enter_grows t url p (shared w)) as (? & Hheap & ?).
        destruct (_make_request_enter t url p (shared w)) as [tk s1].
        simplify_eq. simpl in *. rewrite Hheap. split_and!; try done.
        intros t' r E. rewrite list_lookup_insert_ne; [done|].
        intros ->. simplify_eq.
      + destruct (_make_request_wake t url p (shared w)) as [[tk s1]|] eqn:Ew;
          [|done].
        simplify_eq. simpl.
        destruct (wake_cases _ _ _ _ _ _ Ew)
          as (ws & El & [(l & _ & _ & Hl & Hsent & Hheap & _)
                        |(_ & _ & Hl & Hsent & Hheap & _)]);
          rewrite Hl, Hsent, Hheap;
          (split_and!; [apply dom_insert_subseteq|done| |]); try done;
          try (by apply prefix_app_r);
          intros t' r E; (rewrite list_lookup_insert_ne; [done|]);
          intros ->; simplify_eq.
    - destruct (tasks w !! t) as [[url p|url p|url p|r']|] eqn:Et; try done.
      pose proof (receive_grows url p r (shared w)) as (Hdom & ? & Hsent).
      destruct (_make_request_receive url p r (shared w)) as [res s1].
      simplify_eq. simpl in *. rewrite Hdom, Hsent. split_and!; try done.
      intros t' r' E. rewrite list_lookup_insert_ne; [done|].
      intros ->. simplify_eq.
    - by simplify_eq. }
  split_and!.
  - by etrans.
  - by etrans.
  - by etrans.
  - auto.
Qed.

End loop_properties.

(** ** A lone caller *)

Lemma find_elem_of k l e : TTLCache.find k l = Some e → e ∈ l ∧ TTLCache.key e = k.
Proof.
  induction l as [|x l IH]; simpl; [done|].
  destruct (String.eqb_spec (TTLCache.key x) k).
  - intros [= ->]. split; [by left|done].
  - intros E. destruct (IH E). split; [by right|done].
Qed.

Lemma put_entries c k v t c' e :
  TTLCache.put c k v t = Some c' → e ∈ TTLCache.entries c' →
  e ∈ TTLCache.entries c ∨ e = TTLCache.Entry k v t.
Proof.
  unfold TTLCache.put. destruct (TTLCache.maxsize c <? 1)%Z; [done|].
  intros [= <-]; simpl. intros He.
  apply elem_of_app in He as [He|He].
  - left. apply last_n_subseteq in He. by apply list_elem_of_filter in He as [_ ?].
  - right. by apply list_elem_of_singleton in He.
Qed.

Lemma get_put_expired c k v t c' t' :
  TTLCache.put c k v t = Some c' → (TTLCache.ttl c ≤ t' - t)%Z →
  TTLCache.get c' k t' = None.
Proof.
  unfold TTLCache.put. destruct (TTLCache.maxsize c <? 1)%Z; [done|].
  intros [= <-] Ht. unfold TTLCache.get; simpl.
  rewrite find_app_fresh; simpl.
  - rewrite String.eqb_refl. unfold TTLCache.valid; simpl.
    by destruct (Z.ltb_spec (t' - t) (TTLCache.ttl c)); [lia|].
  - intros Hin. apply list_elem_of_fmap in Hin as (e & -> & He).
    apply last_n_subseteq in He. by apply list_elem_of_filter in He as [? _].
Qed.

Lemma cached_sound k s l : sound s → cached k s = Some l → l < length (heap s).
Proof.
  unfold sound, cached, TTLCache.get. intros Hs.
  destruct (TTLCache.find k _) as [e|] eqn:E; [|done].
  destruct (TTLCache.valid _ _ e); [|done]. intros [= <-].
  apply find_elem_of in E as [He _].
  by apply (proj1 (Forall_forall _ _) Hs).
Qed.

Lemma release_log k s : log (release k s) = log s.
Proof. by destruct (release_fields k s) as (_ & _ & _ & _ & ->). Qed.

Lemma release_locks_eq k x s :
  _request_locks x = _request_locks s →
  _request_locks (release k x) = _request_locks (release k s).
Proof. intros E. unfold release. rewrite E. by destruct (_ !! k). Qed.

Section lone_caller.
Context `{Externals}.

#[local] Arguments _get_cache_key : simpl never.

(** What an answer does to the state, whatever the answer. *)
Lemma receive_outcome url p r s :
  received url p r s (_make_request_receive url p r s).
Proof.
  unfold received.
  destruct (upstream_error r) as [msg|] eqn:Er.
  { rewrite (receive_failed _ _ _ _ msg Er).
    rewrite release_sent, release_now, release_heap, release_cache, release_log.
    split_and!; try done; [by apply release_locks_eq|].
    left. exists msg. by split_and!. }
  unfold _make_request_receive, reply_payload.
  destruct r as [m|m|code m json]; simpl in Er; try done.
  destruct ((200 <=? code) && (code <? 300))%Z eqn:Ec; [|done].
  cbn [negb]. destruct json as [data|].
  - unfold TTLCache.put. cbn [request_cache set_heap now heap].
    destruct (Z.ltb_spec (TTLCache.maxsize (request_cache s)) 1);
      rewrite release_sent, release_now, release_heap, release_cache,
        release_log; cbn [sent now heap request_cache log set_heap set_cache];
      (split_and!; try done; [by apply release_locks_eq|]);
      right; right; exists data; (split_and!; try done).
    + right. by split_and!.
    + left. split; [done|]. unfold TTLCache.put.
      by destruct (Z.ltb_spec (TTLCache.maxsize (request_cache s)) 1); [lia|].
  - rewrite release_sent, release_now, release_heap, release_cache, release_log.
    split_and!; try done. right; left. by split_and!.
Qed.

Lemma quiet_lock_free k s : quiet s → lock_free k s.
Proof.
  intros Hq. unfold lock_free. destruct (_ !! k) as [lk|] eqn:E; [|done].
  by apply (Hq k).
Qed.

(** X4: a caller that is alone always gets an outcome from
    [_make_request]: it never waits for ever.  No lock is left held, the
    cache still holds addresses of the heap only, the objects of the heap
    are as before and at most one is new, at most the one GET of this call
    was sent, and the outcome is the address of an object, the [ValueError]
    of a body that is not JSON or of a cache without room, or the error 500
    of an [httpx.HTTPError]. *)
Theorem lone_request_returns (net : upstream) (url : string) (p : params)
    (s : state) :
  quiet s → sound s →
  ∃ r s', _make_request net url p s = Some (r, s')
    ∧ quiet s' ∧ sound s'
    ∧ heap s `prefix_of` heap s'
    ∧ (sent s' = sent s ∨ sent s' = sent s ++ [(url, p)])
    ∧ match r with
      | Return l => l < length (heap s')
      | Raise e =>
          e = Builtin ValueError ∨ ∃ msg, e = HTTPException 500 (Text msg)
      end.
Proof.
  intros Hq Hs.
  destruct (cached (_get_cache_key url p) s) as [l|] eqn:Ec.
  { exists (Return l), s. unfold _make_request.
    rewrite (enter_hit _ _ _ _ l Ec). split_and!; try done; [by left|].
    by apply (cached_sound (_get_cache_key url p)). }
  rewrite (make_request_free _ _ _ _ Ec (quiet_lock_free _ _ Hq)).
  set (s1 := tick _ _).
  pose proof (receive_outcome url p (net url p).2 s1) as Hr.
  destruct (_make_request_receive url p (net url p).2 s1) as [res s'].
  destruct Hr as (Hsent & _ & Hlocks & Hr).
  exists res, s'. split; [done|].
  assert (quiet s') as Hq'.
  { intros k lk. rewrite Hlocks. unfold release. subst s1; simpl.
    rewrite lookup_insert_eq; simpl.
    destruct (decide (k = _get_cache_key url p)) as [->|Hne].
    - rewrite lookup_insert_eq. by intros [= <-].
    - rewrite !lookup_insert_ne by done. apply Hq. }
  assert (sent s' = sent s ∨ sent s' = sent s ++ [(url, p)]) as Hsent'.
  { right. by rewrite Hsent. }
  destruct Hr as [(msg & _ & -> & Hh & Hc & _)|[(-> & _ & _ & Hh & Hc & _)
    |(data & _ & Hh & _ & [(-> & Hput)|(-> & _ & Hc)])]].
  - split_and!; try done.
    + unfold sound. by rewrite Hh, Hc.
    + by rewrite Hh.
    + right. by exists msg.
  - split_and!; try done.
    + unfold sound. by rewrite Hh, Hc.
    + by rewrite Hh.
    + by left.
  - split_and!; try done.
    + unfold sound. rewrite Hh. apply Forall_forall. intros e He.
      rewrite length_app; simpl.
      destruct (put_entries _ _ _ _ _ _ Hput He) as [Hin| ->]; simpl; [|lia].
      pose proof (proj1 (Forall_forall _ _) Hs e Hin). simpl in *. lia.
    + rewrite Hh. by apply prefix_app_r.
    + rewrite Hh, length_app. simpl. lia.
  - split_and!; try done.
    + unfold sound. rewrite Hh, Hc. apply Forall_forall. intros e He.
      rewrite length_app.
      pose proof (proj1 (Forall_forall _ _) Hs e He). simpl in *. lia.
    + rewrite Hh. by apply prefix_app_r.
    + by left.
Qed.

End lone_caller.

(** ** The loops of the handler *)

Lemma dict_get_set_eq k v d : Py.dict_get k (Py.dict_set k v d) = Some v.
Proof.
  induction d as [|[k' v'] d IH]; simpl.
  - by rewrite String.eqb_refl.
  - destruct (String.eqb k k') eqn:E; simpl; [by rewrite String.eqb_refl|].
    by rewrite E.
Qed.

Lemma dict_get_set_ne k k' v d :
  k ≠ k' → Py.dict_get k (Py.dict_set k' v d) = Py.dict_get k d.
Proof.
  intros Hne. induction d as [|[k0 v0] d IH]; simpl.
  - by destruct (String.eqb_spec k k').
  - destruct (String.eqb_spec k' k0) as [->|]; simpl.
    + by destruct (String.eqb_spec k k0).
    + destruct (String.eqb_spec k k0); [done|apply IH].
Qed.

Lemma dict_set_set k v v' d :
  Py.dict_set k v (Py.dict_set k v' d) = Py.dict_set k v d.
Proof.
  induction d as [|[k0 v0] d IH]; simpl.
  - by rewrite String.eqb_refl.
  - destruct (String.eqb k k0) eqn:E; simpl.
    + by rewrite String.eqb_refl.
    + by rewrite E, IH.
Qed.

Section handler_loops.
Context `{Externals}.

Lemma analyze_sentiment_text v s :
  analyze_sentiment v = Return s →
  ∃ t polarity c, v = PStr t
    ∧ s = PDict [("polarity", PFloat polarity); ("classification", PStr c)]
    ∧ (c = "positive" ∨ c = "negative" ∨ c = "neutral").
Proof.
  destruct v; simpl; try done. intros [= <-].
  eexists _, _, _. split_and!; [done..|].
  destruct (PrimFloat.ltb 0 _); [by left|].
  destruct (PrimFloat.ltb _ 0); [right; by left|right; by right].
Qed.

Lemma sentiment_loop_eq comments cs' stopped :
  add_sentiment comments = (cs', stopped) →
  ∃ n, n ≤ length comments
    ∧ length cs' = length comments
    ∧ Forall2 annotated (take n comments) (take n cs')
    ∧ drop n cs' = drop n comments
    ∧ match stopped with
      | None => n = length comments
      | Some e =>
          (∃ err, e = Builtin err)
          ∧ ∃ c, comments !! n = Some c ∧ ∀ c', ¬ annotated c c'
      end.
Proof.
  revert cs' stopped.
  induction comments as [|c cs IH]; intros cs' stopped E.
  { injection E as <- <-. exists 0. by split_and!. }
  assert (∀ err, (∀ c', ¬ annotated c c') →
    (cs', stopped) = (c :: cs, Some (Builtin err)) →
    ∃ n, n ≤ length (c :: cs)
      ∧ length cs' = length (c :: cs)
      ∧ Forall2 annotated (take n (c :: cs)) (take n cs')
      ∧ drop n cs' = drop n (c :: cs)
      ∧ match stopped with
        | None => n = length (c :: cs)
        | Some e =>
            (∃ err, e = Builtin err)
            ∧ ∃ c0, (c :: cs) !! n = Some c0 ∧ ∀ c', ¬ annotated c0 c'
        end) as Hfail.
  { intros err Hno [= -> ->]. exists 0. simpl. split; [lia|]. split; [done|].
    split; [constructor|]. split; [done|]. split; [by exists err|].
    by exists c. }
  simpl in E.
  destruct c as [| | | | |items|f]; simpl in E;
    try (apply (Hfail TypeError); [|done];
         by intros c' (? & ? & ? & ? & _)).
  destruct (Py.dict_get "text" f) as [text|] eqn:Et.
  2:{ apply (Hfail (KeyError "text")); [|done].
      intros c' (? & ? & ? & [= <-] & ? & _). congruence. }
  destruct (analyze_sentiment text) as [s|e] eqn:Es.
  2:{ destruct text; simpl in Es; try done; injection Es as <-;
      (apply (Hfail TypeError); [|done]);
      intros c' (? & ? & ? & [= <-] & ? & _); congruence. }
  destruct (analyze_sentiment_text _ _ Es) as (t & _ & _ & -> & _).
  destruct (add_sentiment cs) as [rest' e'].
  destruct (IH _ _ eq_refl) as (n & Hn & Hlen & Hann & Hrest & Hstop).
  injection E as <- <-.
  exists (S n). simpl. split; [lia|]. split; [by rewrite Hlen|].
  split; [constructor; [by exists f, t, s|done]|].
  split; [done|].
  destruct e' as [e'|]; [|lia].
  destruct Hstop as (He & c & Hc & Hno). split; [done|]. by exists c.
Qed.

(** X5: the loop of lines 196-198 goes through the comments in order: it
    adds a sentiment to each dict with a text and leaves its other fields
    as they are; at the first comment that is no such dict it stops with
    an exception, and the comments from that one on are untouched, while
    those before it keep their new field.  The list never changes its
    length. *)
Theorem sentiment_loop (comments : list pyval) :
  ∃ n, n ≤ length comments
    ∧ length (add_sentiment comments).1 = length comments
    ∧ Forall2 annotated (take n comments) (take n (add_sentiment comments).1)
    ∧ drop n (add_sentiment comments).1 = drop n comments
    ∧ match (add_sentiment comments).2 with
      | None => n = length comments
      | Some e =>
          (∃ err, e = Builtin err)
          ∧ ∃ c, comments !! n = Some c ∧ ∀ c', ¬ annotated c c'
      end.
Proof.
  destruct (add_sentiment comments) as [cs' stopped] eqn:E.
  by apply sentiment_loop_eq.
Qed.

(** X6: the loop of lines 196-198 changes no field of any comment other
    than [sentiment], whether it finishes or stops on the way. *)
Theorem sentiment_loop_keeps_fields (comments : list pyval) (i : nat)
    (c c' : pyval) (k : string) :
  comments !! i = Some c → (add_sentiment comments).1 !! i = Some c' →
  k ≠ "sentiment" → subscript c' k = subscript c k.
Proof.
  destruct (add_sentiment comments) as [cs' stopped] eqn:E. simpl.
  destruct (sentiment_loop_eq _ _ _ E) as (n & Hn & Hlen & Hann & Hrest & _).
  intros Hc Hc' Hk.
  destruct (decide (i < n)) as [Hi|Hi].
  - assert (annotated c c') as (f & t & s & -> & _ & _ & ->).
    { eapply (Forall2_lookup_lr _ _ _ i); [done|..];
        by rewrite lookup_take_lt. }
    simpl. by rewrite dict_get_set_ne.
  - assert (cs' !! i = comments !! i) as Heq.
    { replace i with (n + (i - n)) by lia.
      by rewrite <-!lookup_drop, Hrest. }
    congruence.
Qed.

Lemma filter_comments_kept f cs :
  Forall (λ c, classified f c = true) cs → filter_comments f cs = Return cs.
Proof.
  induction 1 as [|c cs Hc _ IH]; simpl; [done|].
  unfold classified in Hc.
  destruct (subscript c "sentiment") as [s|]; [|done].
  destruct (subscript s "classification") as [[]|]; try done.
  by rewrite IH, Hc.
Qed.

(** X7: where the filter of lines 202-205 succeeds, it keeps exactly the
    comments whose classification is [filter_by], in their order, and
    filtering the result again changes nothing. *)
Theorem filter_keeps_classified (filter_by : string) (comments kept : list pyval) :
  filter_comments filter_by comments = Return kept →
  kept = filter (λ c, classified filter_by c = true) comments
  ∧ filter_comments filter_by kept = Return kept.
Proof.
  intros E.
  assert (kept = filter (λ c, classified filter_by c = true) comments) as ->.
  { revert kept E. induction comments as [|c cs IH]; intros kept; simpl.
    { by intros [= <-]. }
    destruct (subscript c "sentiment") as [s|] eqn:Es; [|done].
    destruct (subscript s "classification") as [cl|] eqn:Ec; [|done].
    destruct (filter_comments filter_by cs) as [rest'|]; [|done].
    intros [= <-]. rewrite (IH _ eq_refl).
    assert (classified filter_by c
            = match cl with
              | PStr c' => String.eqb c' filter_by
              | _ => false
              end) as Hcl.
    { unfold classified. by rewrite Es, Ec. }
    destruct cl as [| | | |c'| |];
      try (rewrite filter_cons_False; [done|by rewrite Hcl]).
    destruct (String.eqb c' filter_by) eqn:Eq.
    - rewrite filter_cons_True; [done|by rewrite Hcl].
    - rewrite filter_cons_False; [done|by rewrite Hcl]. }
  split; [done|]. apply filter_comments_kept.
  apply Forall_forall. intros c Hc. by apply list_elem_of_filter in Hc as [? _].
Qed.

(** X8: once the loop of lines 196-198 went through all comments, the
    filter of lines 202-205 cannot fail: every comment has the two fields
    it reads, with one of the three classifications. *)
Theorem filter_after_sentiment (filter_by : string) (comments cs' : list pyval) :
  add_sentiment comments = (cs', None) →
  filter_comments filter_by cs'
  = Return (filter (λ c, classified filter_by c = true) cs')
  ∧ Forall (λ c, classified "positive" c || classified "negative" c
                 || classified "neutral" c = true) cs'.
Proof.
  intros E.
  destruct (sentiment_loop_eq _ _ _ E) as (n & _ & Hlen & Hann & _ & ->).
  rewrite !take_ge in Hann by lia. clear E Hlen.
  assert (Forall (λ c', ∃ polarity c,
            subscript c' "sentiment"
            = Return (PDict [("polarity", PFloat polarity);
                             ("classification", PStr c)])
            ∧ (c = "positive" ∨ c = "negative" ∨ c = "neutral")) cs') as Hall.
  { induction Hann as [|c c' cs cs' (f & t & s & -> & _ & Es & ->) _ IH];
      constructor; [|done].
    destruct (analyze_sentiment_text _ _ Es) as (_ & pol & cl & _ & -> & Hcl).
    exists pol, cl. split; [|done]. simpl. by rewrite dict_get_set_eq. }
  clear Hann. split.
  - induction Hall as [|c cs (pol & cl & Es & _) _ IH]; simpl; [done|].
    assert (classified filter_by c = String.eqb cl filter_by) as Hcl.
    { unfold classified. by rewrite Es. }
    rewrite Es, IH. simpl.
    destruct (String.eqb cl filter_by) eqn:Eq.
    + rewrite filter_cons_True; [done|by rewrite Hcl].
    + rewrite filter_cons_False; [done|by rewrite Hcl].
  - eapply Forall_impl; [exact Hall|].
    intros c (pol & cl & Es & [-> |[-> | ->]]);
      unfold classified; by rewrite Es.
Qed.

(** X9: going through comments a second time that the loop of lines
    196-198 already went through changes nothing: each comment gets the
    sentiment it already has. *)
Theorem sentiment_loop_again (comments cs' : list pyval) :
  add_sentiment comments = (cs', None) → add_sentiment cs' = (cs', None).
Proof.
  revert cs'. induction comments as [|c cs IH]; intros cs'; simpl.
  { by intros [= <-]. }
  destruct (subscript c "text") as [text|] eqn:Et; [|done].
  destruct (analyze_sentiment text) as [s|] eqn:Es; [|done].
  destruct c as [| | | | | |f]; try done.
  destruct (add_sentiment cs) as [rest' e]. intros [= <- ->].
  simpl in Et. simpl. rewrite dict_get_set_ne by done.
  destruct (Py.dict_get "text" f); [|done]. injection Et as ->.
  rewrite Es, (IH _ eq_refl). by rewrite dict_set_set.
Qed.

End handler_loops.

(** * Worked examples *)

#[local] Existing Instance Example.externals.

Lemma cache_key_order_independent_witness :
  _get_cache_key "/p" [("a", PInt 1); ("b", PInt 2)]
  = _get_cache_key "/p" [("b", PInt 2); ("a", PInt 1)].
Proof.
  apply (cache_key_order_independent "/p"
           [("a", PInt 1); ("b", PInt 2)] [("b", PInt 2); ("a", PInt 1)]).
  - compute_done.
  - apply Permutation_swap.
Defined.

Lemma cache_capacity_witness :
  ∃ c2, put_all (TTLCache.Make 2 60 [])
          [TTLCache.Entry "a" 0 0; TTLCache.Entry "b" 1 1; TTLCache.Entry "c" 2 2]
        = Some c2
    ∧ TTLCache.entries c2 = [TTLCache.Entry "b" 1 1; TTLCache.Entry "c" 2 2]
    ∧ TTLCache.get c2 "a" 2 = None
    ∧ TTLCache.retrievable c2 2 = ["b"; "c"].
Proof.
  destruct (cache_capacity (TTLCache.Make 2 60 []) (TTLCache.Entry "a" 0 0)
              [TTLCache.Entry "b" 1 1; TTLCache.Entry "c" 2 2])
    as (_ & _ & c2 & Hput & Hentries & Hnow).
  - simpl. lia.
  - compute_done.
  - reflexivity.
  - exists c2. destruct (Hnow 2%Z) as [Hgone Hkept].
    split_and!; [done..|]. apply Hkept.
    intros e He. apply list_elem_of_In in He. simpl in He.
    destruct He as [<-|[<-|[]]]; simpl; lia.
Defined.


Lemma failed_fetch_not_cached_witness :
  ∃ s1, _make_request Example.down listing_url listing_params Example.state0
        = Some (Raise (HTTPException 500 (Text "All connection attempts failed")), s1)
    ∧ request_cache s1 = Example.cache0
    ∧ ∃ r s2, _make_request (Feddit.serve Example.db) listing_url listing_params
                (tick 5 s1) = Some (r, s2)
        ∧ sent s2 = [(listing_url, listing_params); (listing_url, listing_params)].
Proof.
  destruct (failed_fetch_not_cached Example.down (Feddit.serve Example.db)
              listing_url listing_params Example.state0
              "All connection attempts failed" 5)
    as (_ & Hseq); [reflexivity|].
  destruct Hseq as (s1 & E & Hc & _ & _ & _ & _ & Hnext);
    [reflexivity|by vm_compute|].
  exists s1. by split_and!.
Defined.


Lemma resolve_subfeddit_witness :
  (∃ s2, get_subfeddit_by_name (Feddit.serve Example.db) "cooking" Example.state0
         = Some (Return 1, s2)
     ∧ heap s2 !! 1 = Some (Feddit.subfeddit_json (1%Z, "Cooking")))
  ∧ ∃ s1, get_subfeddit_by_name (Feddit.serve Example.db) "nonexistent"
            Example.state0
          = Some (Raise (not_found "nonexistent"), s1).
Proof.
  split.
  - edestruct (resolve_subfeddit (Feddit.serve Example.db) "cooking"
                 Example.state0) as [Hfound _];
      [vm_compute; reflexivity..|].
    edestruct (Hfound [] (Feddit.subfeddit_json (1%Z, "Cooking"))
                 [Feddit.subfeddit_json (2%Z, "Travel")]
                 "Cooking" (PInt 1)) as [_ Hdetail];
      [reflexivity|constructor|reflexivity|reflexivity|reflexivity|].
    eexists. split; [apply Hdetail; vm_compute; reflexivity|].
    reflexivity.
  - edestruct (resolve_subfeddit (Feddit.serve Example.db) "nonexistent"
                 Example.state0) as [_ Hnone];
      [vm_compute; reflexivity..|].
    eexists. apply Hnone.
    repeat constructor; eexists; (split; [reflexivity|by vm_compute]).
Defined.

Lemma malformed_listing_witness :
  ∃ s1, get_subfeddit_by_name Example.no_field "cooking" Example.state0
        = Some (Raise (not_found "cooking"), s1).
Proof.
  edestruct (malformed_listing Example.no_field "cooking" Example.state0)
    as [Hdefault _]; [vm_compute; reflexivity..|].
  eexists. apply Hdefault. reflexivity.
Defined.

(** A listing without the [subfeddits] field is answered like an empty
    listing, with the 404 error: the missing field is defaulted. *)
Lemma malformed_listing_defaulted :
  (fst <$> get_subfeddit_by_name Example.no_field "cooking" Example.state0)
  = Some (Raise (HTTPException 404
                   (Text "Subfeddit with name 'cooking' not found")))
  ∧ (fst <$> get_subfeddit_by_name Example.no_field "cooking" Example.state0)
    = (fst <$> get_subfeddit_by_name Example.empty_listing "cooking"
                 Example.state0).
Proof. split; vm_compute; reflexivity. Qed.




(** C3. One request for the comments of "cooking" from an empty cache:
    the handler gets the cached payload object itself and writes the
    [sentiment] of each comment (and the response fields) into it, so the
    payload the cache holds afterwards is not the one the upstream sent. *)
Theorem cached_comments_carry_sentiment :
  ∃ l s1 payload comments,
    get_subfeddit_comments (Feddit.serve Example.db) "cooking" 25 0
      (Some "desc") None Example.state0 = Some (Return l, s1)
    ∧ cached (_get_cache_key "/api/v1/comments/" Example.comments_params) s1
      = Some l
    ∧ heap s1 !! l = Some payload
    ∧ subscript payload "comments" = Return (PList comments)
    ∧ length comments = 3
    ∧ Forall (λ c, ∃ p, subscript c "sentiment"
                        = Return (PDict [("polarity", PFloat p);
                                         ("classification",
                                          PStr (if PrimFloat.ltb 0 p then "positive"
                                                else if PrimFloat.ltb p 0 then "negative"
                                                else "neutral"))])) comments
    ∧ Forall (λ c, subscript c "sentiment" = Raise (Builtin (KeyError "sentiment")))
        (Feddit.comments Example.db 1)
    ∧ subscript payload "subfeddit_name" = Return (PStr "cooking")
    ∧ subscript (Feddit.page Example.db 1 25 0) "subfeddit_name"
      = Raise (Builtin (KeyError "subfeddit_name")).
Proof.
  do 4 eexists. split; [vm_compute; reflexivity|].
  split; [vm_compute; reflexivity|].
  split; [vm_compute; reflexivity|].
  split; [vm_compute; reflexivity|].
  split; [reflexivity|].
  split; [|split; [|split; reflexivity]].
  - constructor; [by exists 1%float|].
    constructor; [by exists (-1)%float|].
    constructor; [by exists 0%float|]. constructor.
  - repeat (constructor; [reflexivity|]). constructor.
Qed.

(** The same defect with a filter: after a request for the positive
    comments, a request without filter is served the filtered list from
    the cache, one comment of the three, and no GET is sent. *)
Lemma filtered_comments_stay_filtered :
  ∃ l s1 s2 payload comments,
    get_subfeddit_comments (Feddit.serve Example.db) "cooking" 25 0
      (Some "desc") (Some "positive") Example.state0 = Some (Return l, s1)
    ∧ get_subfeddit_comments (Feddit.serve Example.db) "cooking" 25 0
        (Some "desc") None (tick 1 s1) = Some (Return l, s2)
    ∧ sent s2 = sent s1
    ∧ heap s2 !! l = Some payload
    ∧ subscript payload "comments" = Return (PList comments)
    ∧ length comments = 1
    ∧ length (Feddit.comments Example.db 1) = 3.
Proof.
  do 5 eexists. split; [vm_compute; reflexivity|].
  split; [vm_compute; reflexivity|].
  split; [vm_compute; reflexivity|].
  split; [vm_compute; reflexivity|].
  split; [vm_compute; reflexivity|].
  split; reflexivity.
Qed.

(** ** Worked examples of the further properties *)

Lemma clean_two_callers : clean Example.two_callers.
Proof.
  split.
  - by repeat constructor.
  - intros k lk E. change (_request_locks _) with (∅ : gmap string Lock) in E.
    by rewrite lookup_empty in E.
Qed.

Lemma one_fetch_in_flight_witness :
  ∃ w, run [Run 0; Run 1] Example.two_callers = Some w
    ∧ tasks w = [AwaitGet listing_url listing_params;
                 WaitLock listing_url listing_params]
    ∧ ∃ lk, _request_locks (shared w) !! _get_cache_key listing_url listing_params
            = Some lk ∧ locked lk = true.
Proof.
  destruct (run [Run 0; Run 1] Example.two_callers) as [w|] eqn:Hrun;
    [|by vm_compute in Hrun].
  exists w. split; [done|].
  assert (tasks w = [AwaitGet listing_url listing_params;
                     WaitLock listing_url listing_params]) as Ht.
  { vm_compute in Hrun. by injection Hrun as <-. }
  split; [done|].
  apply (one_fetch_in_flight Example.two_callers w [Run 0; Run 1] 0 0
           listing_url listing_url listing_params listing_params).
  - apply clean_two_callers.
  - done.
  - by rewrite Ht.
  - by rewrite Ht.
  - done.
Defined.

Lemma calls_complete_witness :
  ∃ acts' w', Forall (answers (λ _, Example.ok)) acts'
    ∧ run acts' Example.two_callers = Some w'
    ∧ Forall (λ tk, is_done tk = true) (tasks w')
    ∧ length acts' ≤ 6.
Proof.
  destruct (calls_complete Example.two_callers Example.two_callers []
              (λ _, Example.ok))
    as (acts' & w' & Hans & Hrun & Hdone & Hlen & Hbound).
  - apply clean_two_callers.
  - done.
  - exists acts', w'. split_and!; [done..|].
    simpl in Hbound. lia.
Defined.

Lemma run_only_grows_witness :
  ∃ w', run [Run 0; Run 1; Deliver 0 Example.ok] Example.two_callers = Some w'
    ∧ sent Example.state0 `prefix_of` sent (shared w')
    ∧ heap Example.state0 `prefix_of` heap (shared w').
Proof.
  destruct (run [Run 0; Run 1; Deliver 0 Example.ok] Example.two_callers)
    as [w'|] eqn:Hrun; [|by vm_compute in Hrun].
  exists w'. split; [done|].
  destruct (run_only_grows _ _ _ Hrun) as (_ & Hh & Hs & _).
  by split.
Defined.

Lemma lone_request_returns_witness :
  ∃ r s', _make_request Example.down listing_url listing_params Example.state0
          = Some (r, s')
    ∧ quiet s' ∧ sound s'.
Proof.
  destruct (lone_request_returns Example.down listing_url listing_params
              Example.state0) as (r & s' & E & Hq & Hs & _).
  - intros k lk E. change (_request_locks _) with (∅ : gmap string Lock) in E.
    by rewrite lookup_empty in E.
  - constructor.
  - by exists r, s'.
Defined.

Lemma sentiment_loop_keeps_fields_witness :
  ∃ c', (add_sentiment (Feddit.comments Example.db 1)).1 !! 0 = Some c'
    ∧ subscript c' "username"
      = subscript (Example.comment 1 "user1" "This is a great comment!"
                     1234567890) "username".
Proof.
  eexists. split; [reflexivity|].
  apply (sentiment_loop_keeps_fields (Feddit.comments Example.db 1) 0);
    [reflexivity|reflexivity|done].
Defined.

Lemma filter_keeps_classified_witness :
  ∃ kept, filter_comments "negative"
            (add_sentiment (Feddit.comments Example.db 1)).1 = Return kept
    ∧ length kept = 1
    ∧ filter_comments "negative" kept = Return kept.
Proof.
  eexists. split; [reflexivity|]. split; [reflexivity|].
  eapply (filter_keeps_classified "negative"
            (add_sentiment (Feddit.comments Example.db 1)).1).
  reflexivity.
Defined.

Lemma filter_after_sentiment_witness :
  ∃ cs', add_sentiment (Feddit.comments Example.db 1) = (cs', None)
    ∧ filter_comments "positive" cs'
      = Return (filter (λ c, classified "positive" c = true) cs').
Proof.
  eexists. split; [reflexivity|].
  eapply (filter_after_sentiment "positive" (Feddit.comments Example.db 1)).
  reflexivity.
Defined.

Lemma sentiment_loop_again_witness :
  ∃ cs', add_sentiment (Feddit.comments Example.db 1) = (cs', None)
    ∧ add_sentiment cs' = (cs', None).
Proof.
  eexists. split; [reflexivity|].
  apply (sentiment_loop_again (Feddit.comments Example.db 1)).
  reflexivity.
Defined.
